(** * The generated Windows plugin registrant

    A shallow embedding of [windows/flutter/generated_plugin_registrant.cc]:
    the routine [RegisterPlugins], which wires eight third-party plugins into
    the plugin registry of the host.

    The routine does nothing but call out: it asks the registry for a
    registrar by name ([registry->GetRegistrarForPlugin(name)]) and hands the
    answer to a plugin's C entry point ([...RegisterWithRegistrar]).  Neither
    the registry nor the plugins are part of the file, so the routine is
    embedded as a tree of calls ([Prog]) and run against a host that is a
    parameter ([Host]). *)

From stdpp Require Import gmap strings list fin_maps.

(** ** The plugins' entry points

    One constructor per C function called by the routine, under the name the
    source calls it by. *)

Inductive EntryPoint : Type :=
| BatteryPlusWindowsPluginRegisterWithRegistrar
| BonsoirWindowsPluginCApiRegisterWithRegistrar
| FirebaseCorePluginCApiRegisterWithRegistrar
| FlutterJsPluginRegisterWithRegistrar
| PermissionHandlerWindowsPluginRegisterWithRegistrar
| ScreenRetrieverWindowsPluginCApiRegisterWithRegistrar
| UrlLauncherWindowsRegisterWithRegistrar
| WindowManagerPluginRegisterWithRegistrar.

#[global] Instance EntryPoint_eq_dec : EqDecision EntryPoint.
Proof. solve_decision. Defined.

Definition all_entry_points : list EntryPoint :=
  [ BatteryPlusWindowsPluginRegisterWithRegistrar;
    BonsoirWindowsPluginCApiRegisterWithRegistrar;
    FirebaseCorePluginCApiRegisterWithRegistrar;
    FlutterJsPluginRegisterWithRegistrar;
    PermissionHandlerWindowsPluginRegisterWithRegistrar;
    ScreenRetrieverWindowsPluginCApiRegisterWithRegistrar;
    UrlLauncherWindowsRegisterWithRegistrar;
    WindowManagerPluginRegisterWithRegistrar ].

(** The C identifier of an entry point, as written in the source. *)
Definition entry_symbol (e : EntryPoint) : string :=
  match e with
  | BatteryPlusWindowsPluginRegisterWithRegistrar =>
      "BatteryPlusWindowsPluginRegisterWithRegistrar"
  | BonsoirWindowsPluginCApiRegisterWithRegistrar =>
      "BonsoirWindowsPluginCApiRegisterWithRegistrar"
  | FirebaseCorePluginCApiRegisterWithRegistrar =>
      "FirebaseCorePluginCApiRegisterWithRegistrar"
  | FlutterJsPluginRegisterWithRegistrar =>
      "FlutterJsPluginRegisterWithRegistrar"
  | PermissionHandlerWindowsPluginRegisterWithRegistrar =>
      "PermissionHandlerWindowsPluginRegisterWithRegistrar"
  | ScreenRetrieverWindowsPluginCApiRegisterWithRegistrar =>
      "ScreenRetrieverWindowsPluginCApiRegisterWithRegistrar"
  | UrlLauncherWindowsRegisterWithRegistrar =>
      "UrlLauncherWindowsRegisterWithRegistrar"
  | WindowManagerPluginRegisterWithRegistrar =>
      "WindowManagerPluginRegisterWithRegistrar"
  end.

(** A plugin's entry point is named after the plugin: the plugin's own name
    is the identifier of its entry point without the trailing
    [RegisterWithRegistrar]. *)
Definition entry_suffix : string := "RegisterWithRegistrar".

Definition canonical_name (e : EntryPoint) : string :=
  let sym := entry_symbol e in
  String.substring 0 (String.length sym - String.length entry_suffix) sym.

(** ** Programs: trees of calls to the host

    [Handle] is what a [flutter::PluginRegistry*] is, [Registrar] what
    [GetRegistrarForPlugin] returns.  A program either returns, or calls the
    registry and goes on with the registrar it gets, or calls an entry point
    and goes on.  There is no constructor that catches a failure. *)

Inductive Prog (Handle Registrar A : Type) : Type :=
| Return (a : A)
| CallLookup (registry : Handle) (name : string)
             (k : Registrar -> Prog Handle Registrar A)
| CallEntry (entry : EntryPoint) (registrar : Registrar)
            (k : Prog Handle Registrar A).

Arguments Return {Handle Registrar A} a.
Arguments CallLookup {Handle Registrar A} registry name k.
Arguments CallEntry {Handle Registrar A} entry registrar k.

Fixpoint bind {Handle Registrar A B : Type}
  (p : Prog Handle Registrar A) (f : A -> Prog Handle Registrar B)
  : Prog Handle Registrar B :=
  match p with
  | Return a => f a
  | CallLookup h n k => CallLookup h n (fun r => bind (k r) f)
  | CallEntry e r k => CallEntry e r (bind k f)
  end.

Notation "x <- p ;; q" := (bind p (fun x => q))
  (at level 100, p at next level, right associativity).
Notation "p ;; q" := (bind p (fun _ => q))
  (at level 100, right associativity).

(** [registry->GetRegistrarForPlugin(name)] *)
Definition GetRegistrarForPlugin {Handle Registrar : Type}
  (registry : Handle) (name : string) : Prog Handle Registrar Registrar :=
  CallLookup registry name Return.

(** [entry(arg)]: C++ evaluates the argument, then calls the function. *)
Definition invoke {Handle Registrar : Type} (entry : EntryPoint)
  (arg : Prog Handle Registrar Registrar) : Prog Handle Registrar unit :=
  r <- arg ;; CallEntry entry r (Return tt).

(** ** The routine *)

Definition RegisterPlugins {Handle Registrar : Type} (registry : Handle)
  : Prog Handle Registrar unit :=
  invoke BatteryPlusWindowsPluginRegisterWithRegistrar
    (GetRegistrarForPlugin registry "BatteryPlusWindowsPlugin") ;;
  invoke BonsoirWindowsPluginCApiRegisterWithRegistrar
    (GetRegistrarForPlugin registry "BonsoirWindowsPluginCApi") ;;
  invoke FirebaseCorePluginCApiRegisterWithRegistrar
    (GetRegistrarForPlugin registry "FirebaseCorePluginCApi") ;;
  invoke FlutterJsPluginRegisterWithRegistrar
    (GetRegistrarForPlugin registry "FlutterJsPlugin") ;;
  invoke PermissionHandlerWindowsPluginRegisterWithRegistrar
    (GetRegistrarForPlugin registry "PermissionHandlerWindowsPlugin") ;;
  invoke ScreenRetrieverWindowsPluginCApiRegisterWithRegistrar
    (GetRegistrarForPlugin registry "ScreenRetrieverWindowsPluginCApi") ;;
  invoke UrlLauncherWindowsRegisterWithRegistrar
    (GetRegistrarForPlugin registry "UrlLauncherWindows") ;;
  invoke WindowManagerPluginRegisterWithRegistrar
    (GetRegistrarForPlugin registry "WindowManagerPlugin").

(** ** The routine as a table and a loop

    The same routine written the way the specification describes it: a
    static table of (entry point, name) pairs and one loop over it. *)

Definition Descriptor : Type := (EntryPoint * string)%type.

Definition plugin_table : list Descriptor :=
  [ (BatteryPlusWindowsPluginRegisterWithRegistrar, "BatteryPlusWindowsPlugin");
    (BonsoirWindowsPluginCApiRegisterWithRegistrar, "BonsoirWindowsPluginCApi");
    (FirebaseCorePluginCApiRegisterWithRegistrar, "FirebaseCorePluginCApi");
    (FlutterJsPluginRegisterWithRegistrar, "FlutterJsPlugin");
    (PermissionHandlerWindowsPluginRegisterWithRegistrar,
       "PermissionHandlerWindowsPlugin");
    (ScreenRetrieverWindowsPluginCApiRegisterWithRegistrar,
       "ScreenRetrieverWindowsPluginCApi");
    (UrlLauncherWindowsRegisterWithRegistrar, "UrlLauncherWindows");
    (WindowManagerPluginRegisterWithRegistrar, "WindowManagerPlugin") ].

Definition register_one {Handle Registrar : Type} (registry : Handle)
  (d : Descriptor) : Prog Handle Registrar unit :=
  invoke (fst d) (GetRegistrarForPlugin registry (snd d)).

Fixpoint register_all {Handle Registrar : Type} (registry : Handle)
  (table : list Descriptor) : Prog Handle Registrar unit :=
  match table with
  | [] => Return tt
  | d :: rest => register_one registry d ;; register_all registry rest
  end.

(** ** The host

    What the routine calls into.  [World] is the state these calls read and
    change (the registry behind the handle and whatever the plugins keep),
    [Failure] is whatever the host reports when a call does not return
    normally.  A call yields its answer, a registrar or a failure, and the
    world it leaves behind. *)

Class Host (Handle Registrar World Failure : Type) : Type := {
  host_lookup : Handle -> string -> World -> (Failure + Registrar) * World;
  host_entry : EntryPoint -> Registrar -> World -> (Failure + unit) * World
}.

(** The same interface for a host whose answers are not a function of the
    world: any answer related to the call may come back. *)
Class HostRel (Handle Registrar World Failure : Type) : Type := {
  lookup_rel :
    Handle -> string -> World -> (Failure + Registrar) * World -> Prop;
  entry_rel :
    EntryPoint -> Registrar -> World -> (Failure + unit) * World -> Prop
}.

Section Semantics.
Context {Handle Registrar World Failure : Type}.

(** One call as the host sees it, with the answer it gave. *)
Inductive Event : Type :=
| LookupEv (registry : Handle) (name : string) (answer : Failure + Registrar)
| EntryEv (entry : EntryPoint) (registrar : Registrar)
          (answer : Failure + unit).

(** How an invocation ends: the value returned or the failure that ended it,
    the world left behind, and the calls made, first call first. *)
Record Result (A : Type) : Type := mkResult {
  outcome : Failure + A;
  final : World;
  calls : list Event
}.
Arguments mkResult {A} _ _ _.
Arguments outcome {A} _.
Arguments final {A} _.
Arguments calls {A} _.

Definition after {A : Type} (ev : Event) (r : Result A) : Result A :=
  mkResult (outcome r) (final r) (ev :: calls r).

Definition stop {A : Type} (ev : Event) (f : Failure) (w : World) : Result A :=
  mkResult (inl f) w [ev].

(** Running a program: a call that fails ends the run with that failure. *)
Fixpoint run {H : Host Handle Registrar World Failure} {A : Type}
  (p : Prog Handle Registrar A) (w : World) : Result A :=
  match p with
  | Return a => mkResult (inr a) w []
  | CallLookup h n k =>
      let (ans, w') := host_lookup h n w in
      match ans with
      | inl f => stop (LookupEv h n ans) f w'
      | inr r => after (LookupEv h n ans) (run (k r) w')
      end
  | CallEntry e r k =>
      let (ans, w') := host_entry e r w in
      match ans with
      | inl f => stop (EntryEv e r ans) f w'
      | inr _ => after (EntryEv e r ans) (run k w')
      end
  end.

(** The same semantics over a relational host. *)
Inductive exec {R : HostRel Handle Registrar World Failure} {A : Type}
  : Prog Handle Registrar A -> World -> Result A -> Prop :=
| exec_return a w :
    exec (Return a) w (mkResult (inr a) w [])
| exec_lookup_fails h n k w f w' :
    lookup_rel h n w (inl f, w') ->
    exec (CallLookup h n k) w (stop (LookupEv h n (inl f)) f w')
| exec_lookup h n k w r w' res :
    lookup_rel h n w (inr r, w') ->
    exec (k r) w' res ->
    exec (CallLookup h n k) w (after (LookupEv h n (inr r)) res)
| exec_entry_fails e r k w f w' :
    entry_rel e r w (inl f, w') ->
    exec (CallEntry e r k) w (stop (EntryEv e r (inl f)) f w')
| exec_entry e r k w u w' res :
    entry_rel e r w (inr u, w') ->
    exec k w' res ->
    exec (CallEntry e r k) w (after (EntryEv e r (inr u)) res).

(** A functional host seen as a relational one. *)
Definition graph_of (H : Host Handle Registrar World Failure)
  : HostRel Handle Registrar World Failure :=
  {| lookup_rel h n w ans := host_lookup h n w = ans;
     entry_rel e r w ans := host_entry e r w = ans |}.

(** A relational host is deterministic when a call in a world has at most
    one answer. *)
Definition deterministic (R : HostRel Handle Registrar World Failure) : Prop :=
  (forall h n w a1 a2, lookup_rel h n w a1 -> lookup_rel h n w a2 -> a1 = a2)
  /\ (forall e r w a1 a2, entry_rel e r w a1 -> entry_rel e r w a2 -> a1 = a2).

(** *** Reading a trace *)

Definition returned {A : Type} (r : Result A) : Prop :=
  exists a, outcome r = inr a.

Definition failure_of (ev : Event) : option Failure :=
  match ev with
  | LookupEv _ _ (inl f) | EntryEv _ _ (inl f) => Some f
  | _ => None
  end.

(** A call without its answer and without the registrar passed, which is
    the host's choice: what the routine asks for. *)
Inductive Call : Type :=
| LookupCall (registry : Handle) (name : string)
| EntryCall (entry : EntryPoint).

Definition call_of (ev : Event) : Call :=
  match ev with
  | LookupEv h n _ => LookupCall h n
  | EntryEv e _ _ => EntryCall e
  end.

(** The names asked of the registry, in order. *)
Definition lookup_names (tr : list Event) : list string :=
  omap (fun ev => match ev with LookupEv _ n _ => Some n | _ => None end) tr.

(** The handles the lookups went to. *)
Definition lookup_handles (tr : list Event) : list Handle :=
  omap (fun ev => match ev with LookupEv h _ _ => Some h | _ => None end) tr.

(** The entry points called, in order. *)
Definition entries_invoked (tr : list Event) : list EntryPoint :=
  omap (fun ev => match ev with EntryEv e _ _ => Some e | _ => None end) tr.

(** The registrars the registry gave out for [name]. *)
Definition registrars_obtained (name : string) (tr : list Event)
  : list Registrar :=
  omap (fun ev => match ev with
                  | LookupEv _ n (inr r) =>
                      if decide (n = name) then Some r else None
                  | _ => None
                  end) tr.

(** The registrars entry point [entry] was called with. *)
Definition registrars_passed (entry : EntryPoint) (tr : list Event)
  : list Registrar :=
  omap (fun ev => match ev with
                  | EntryEv e r _ =>
                      if decide (e = entry) then Some r else None
                  | _ => None
                  end) tr.

(** A complete round over a table: for each descriptor, in order, a lookup
    of its name on [registry] that succeeds, followed at once by a call of
    its entry point with the registrar just obtained, which succeeds. *)
Fixpoint full_round (registry : Handle) (table : list Descriptor)
  (tr : list Event) : Prop :=
  match table, tr with
  | [], [] => True
  | d :: table', LookupEv h n (inr r) :: EntryEv e r' (inr _) :: tr' =>
      h = registry /\ n = snd d /\ e = fst d /\ r' = r
      /\ full_round registry table' tr'
  | _, _ => False
  end.

(** The calls of one round, without answers. *)
Definition round_calls (registry : Handle) (table : list Descriptor)
  : list Call :=
  flat_map (fun d => [LookupCall registry (snd d); EntryCall (fst d)]) table.

End Semantics.

Arguments Event : clear implicits.
Arguments Call : clear implicits.
Arguments Result : clear implicits.
Arguments mkResult {Handle Registrar World Failure A} _ _ _.
Arguments outcome {Handle Registrar World Failure A} _.
Arguments final {Handle Registrar World Failure A} _.
Arguments calls {Handle Registrar World Failure A} _.

(** How often [name] was asked of the registry. *)
Definition lookups_of {Handle Registrar Failure : Type} (name : string)
  (tr : list (Event Handle Registrar Failure)) : nat :=
  length (filter (fun n => n = name) (lookup_names tr)).

(** How often entry point [entry] was called. *)
Definition invocations_of {Handle Registrar Failure : Type}
  (entry : EntryPoint) (tr : list (Event Handle Registrar Failure)) : nat :=
  length (filter (fun e => e = entry) (entries_invoked tr)).

(** ** The names the host knows the plugins by

    The fixed set of canonical names, as the interface description lists
    them. *)
Definition known_plugin_names : gset string :=
  {[ "BatteryPlusWindowsPlugin"; "BonsoirWindowsPluginCApi";
     "FirebaseCorePluginCApi"; "FlutterJsPlugin";
     "PermissionHandlerWindowsPlugin"; "ScreenRetrieverWindowsPluginCApi";
     "UrlLauncherWindows"; "WindowManagerPlugin" ]}.

(** The order of the calls of one invocation, statement by statement. *)
Definition RegisterPlugins_order {Handle : Type} (registry : Handle)
  : list (Call Handle) :=
  [ LookupCall registry "BatteryPlusWindowsPlugin";
    EntryCall BatteryPlusWindowsPluginRegisterWithRegistrar;
    LookupCall registry "BonsoirWindowsPluginCApi";
    EntryCall BonsoirWindowsPluginCApiRegisterWithRegistrar;
    LookupCall registry "FirebaseCorePluginCApi";
    EntryCall FirebaseCorePluginCApiRegisterWithRegistrar;
    LookupCall registry "FlutterJsPlugin";
    EntryCall FlutterJsPluginRegisterWithRegistrar;
    LookupCall registry "PermissionHandlerWindowsPlugin";
    EntryCall PermissionHandlerWindowsPluginRegisterWithRegistrar;
    LookupCall registry "ScreenRetrieverWindowsPluginCApi";
    EntryCall ScreenRetrieverWindowsPluginCApiRegisterWithRegistrar;
    LookupCall registry "UrlLauncherWindows";
    EntryCall UrlLauncherWindowsRegisterWithRegistrar;
    LookupCall registry "WindowManagerPlugin";
    EntryCall WindowManagerPluginRegisterWithRegistrar ].

(** ** A registry of plugin slots *)

Module SlotRegistry.

(** The host's plugin registry and the plugins' registration functions are
    not in the source file; this module gives them the behaviour the
    specification describes.  The registry maps plugin names to slots, and a
    slot records the registrations made in it. *)

Inductive RegistryHandle : Type := NullRegistry | TheRegistry.

(** A sub-registrar is a handle scoped to one slot of the registry. *)
Record SubRegistrar : Type := { scope : string }.

Inductive Fault : Type := InvalidHandle.

Abbreviation Slots := (gmap string (list EntryPoint)).

(** Modelled from the spec: [PluginRegistry::GetRegistrarForPlugin], which
    is missing from the source.  A lookup by name yields the sub-registrar
    scoped to the slot of that name and changes nothing; a null handle
    denotes no registry and a lookup through it fails. *)
Definition lookup_slot (registry : RegistryHandle) (name : string) (w : Slots)
  : (Fault + SubRegistrar) * Slots :=
  match registry with
  | NullRegistry => (inl InvalidHandle, w)
  | TheRegistry => (inr {| scope := name |}, w)
  end.

Definition registrations (w : Slots) (name : string) : list EntryPoint :=
  default [] (w !! name).

(** Modelled from the spec: the plugins' [...RegisterWithRegistrar]
    functions, which are missing from the source.  A registration through a
    sub-registrar touches the slot the sub-registrar is scoped to and
    nothing else; nothing guards against registering again, the slot records
    every registration. *)
Definition activate (entry : EntryPoint) (r : SubRegistrar) (w : Slots)
  : (Fault + unit) * Slots :=
  (inr tt, <[scope r := registrations w (scope r) ++ [entry]]> w).

(** What a descriptor's lookup and registration together do to the slots. *)
Definition register_slot (w : Slots) (d : Descriptor) : Slots :=
  snd (activate (fst d) {| scope := snd d |} w).

(** Modelled from the spec: a plugin is active once a registration was made
    in its slot. *)
Definition active (w : Slots) (name : string) : Prop :=
  registrations w name <> [].

#[global] Instance slot_host : Host RegistryHandle SubRegistrar Slots Fault :=
  {| host_lookup := lookup_slot; host_entry := activate |}.

End SlotRegistry.

(** ** A host that gives up after a number of calls

    A test double: the world is the number of calls that will still be
    answered; the call after that fails, and the failure says which call it
    was.  A registrar is the name it was asked for. *)

Module FuseHost.

Definition lookup_fused (registry : unit) (name : string) (fuse : nat)
  : (string + string) * nat :=
  match fuse with
  | 0 => (inl ("no registrar for " +:+ name), 0)
  | S fuse' => (inr name, fuse')
  end.

Definition entry_fused (entry : EntryPoint) (registrar : string) (fuse : nat)
  : (string + unit) * nat :=
  match fuse with
  | 0 => (inl (entry_symbol entry +:+ " failed"), 0)
  | S fuse' => (inr tt, fuse')
  end.

#[global] Instance fuse_host : Host unit string nat string :=
  {| host_lookup := lookup_fused; host_entry := entry_fused |}.

(** The same host as a relation, tied down only where a plugin's own name is
    looked up and where an entry point is called on the registrar of its own
    name: any other lookup, and any other call of an entry point, may be
    answered in any way at all. *)
Definition fuse_rel_loose : HostRel unit string nat string :=
  {| lookup_rel h n w ans :=
       n ∈ known_plugin_names -> lookup_fused h n w = ans;
     entry_rel e r w ans :=
       r = canonical_name e -> entry_fused e r w = ans |}.

End FuseHost.

(** ** A mock registry that checks what it is asked

    A test double: it keeps no state, knows the plugins by their names and
    refuses a lookup of any other name, hands out the name asked for as the
    registrar, and refuses a registration made on another plugin's
    registrar. *)

Module MockRegistry.

Definition lookup_mock (registry : unit) (name : string) (w : unit)
  : (string + string) * unit :=
  if decide (name ∈ known_plugin_names) then (inr name, w)
  else (inl "unknown plugin", w).

Definition entry_mock (entry : EntryPoint) (registrar : string) (w : unit)
  : (string + unit) * unit :=
  if decide (registrar = canonical_name entry) then (inr tt, w)
  else (inl "registrar of another plugin", w).

Definition mock_host : Host unit string unit string :=
  {| host_lookup := lookup_mock; host_entry := entry_mock |}.

End MockRegistry.

(** ** One host standing in for another

    Translating what one host sees into what another host sees: handles by
    [eta], registrars by [g], worlds by [phi], failures by [eps]. *)

Section Translation.
Context {Handle1 Registrar1 World1 Failure1 : Type}.
Context {Handle2 Registrar2 World2 Failure2 : Type}.
Context (eta : Handle1 -> Handle2) (g : Registrar1 -> Registrar2).
Context (phi : World1 -> World2) (eps : Failure1 -> Failure2).

Definition translate_event (ev : Event Handle1 Registrar1 Failure1)
  : Event Handle2 Registrar2 Failure2 :=
  match ev with
  | LookupEv h n ans => LookupEv (eta h) n (sum_map eps g ans)
  | EntryEv e r ans => EntryEv e (g r) (sum_map eps id ans)
  end.

Definition translate_result {A : Type}
  (r : Result Handle1 Registrar1 World1 Failure1 A)
  : Result Handle2 Registrar2 World2 Failure2 A :=
  mkResult (sum_map eps id (outcome r)) (phi (final r))
           (map translate_event (calls r)).

(** The second host stands in for the first where the routine calls it on
    handle [registry]: asked for a plugin's own name in the translated world,
    it gives the translated answer and leaves the translated world, and so it
    does when a plugin's entry point is called on the translation of the
    registrar the first host gave out for the plugin's own name.  Nothing is
    asked of it for any other lookup or call. *)
Definition stands_in (H1 : Host Handle1 Registrar1 World1 Failure1)
  (H2 : Host Handle2 Registrar2 World2 Failure2) (registry : Handle1) : Prop :=
  (forall entry w,
     host_lookup (eta registry) (canonical_name entry) (phi w)
     = prod_map (sum_map eps g) phi
         (host_lookup registry (canonical_name entry) w))
  /\ (forall entry w r w1,
        host_lookup registry (canonical_name entry) w = (inr r, w1) ->
        host_entry entry (g r) (phi w1)
        = prod_map (sum_map eps id) phi (host_entry entry r w1)).

End Translation.

(** ** Invoking the routine several times in a row *)

Fixpoint invocations {Handle Registrar : Type} (n : nat) (registry : Handle)
  : Prog Handle Registrar unit :=
  match n with
  | 0 => Return tt
  | S n' => RegisterPlugins registry ;; invocations n' registry
  end.

(** * Properties *)

Section Correctness.
Context {Handle Registrar World Failure : Type}.
Context `{!Host Handle Registrar World Failure}.

Implicit Types (w : World) (registry : Handle).
Implicit Types (tr : list (Event Handle Registrar Failure)).
Implicit Types (table : list Descriptor).

(** ** Running programs *)

Lemma run_bind {A B : Type} (p : Prog Handle Registrar A)
  (f : A -> Prog Handle Registrar B) w :
  run (bind p f) w =
  match outcome (run p w) with
  | inl e => mkResult (inl e) (final (run p w)) (calls (run p w))
  | inr a =>
      let r := run (f a) (final (run p w)) in
      mkResult (outcome r) (final r) (calls (run p w) ++ calls r)
  end.
Proof.
  revert w. induction p as [a | h n k IH | e r k IH]; intros w; simpl.
  - by destruct (run (f a) w).
  - destruct (host_lookup h n w) as [[e | r] w']; simpl; [done |].
    rewrite IH. by destruct (outcome (run (k r) w')).
  - destruct (host_entry e r w) as [[e' | u] w']; simpl; [done |].
    rewrite IH. by destruct (outcome (run k w')).
Qed.

(** One descriptor of the table: its lookup, then its entry point, then the
    rest of the table. *)
Lemma run_register_all_cons registry d table w :
  run (register_all registry (d :: table)) w =
  match host_lookup registry (snd d) w with
  | (inl f, w1) => stop (LookupEv registry (snd d) (inl f)) f w1
  | (inr r, w1) =>
      after (LookupEv registry (snd d) (inr r))
        match host_entry (fst d) r w1 with
        | (inl f, w2) => stop (EntryEv (fst d) r (inl f)) f w2
        | (inr u, w2) =>
            after (EntryEv (fst d) r (inr u))
                  (run (register_all registry table) w2)
        end
  end.
Proof.
  simpl. destruct (host_lookup registry (snd d) w) as [[f | r] w1]; [done |].
  by destruct (host_entry (fst d) r w1) as [[f | u] w2].
Qed.

(** Going through one descriptor of the table: the lookup fails, or the
    entry point fails, or both are answered and the run goes on. *)
Ltac run_descriptor :=
  rewrite run_register_all_cons;
  match goal with
  | |- context [host_lookup ?h ?n ?w0] =>
      destruct (host_lookup h n w0) as [[?f | ?r] ?w];
      [| match goal with
         | |- context [host_entry ?e ?r0 ?w1] =>
             destruct (host_entry e r0 w1) as [[?f | ?u] ?w]
         end ]
  end;
  cbn [calls after stop].

(** Every call before the last one was answered, and a run fails exactly
    when its last call fails, with that call's failure. *)
Lemma run_failure_last {A : Type} (p : Prog Handle Registrar A) w :
  match outcome (run p w) with
  | inr _ => Forall (fun ev => failure_of ev = None) (calls (run p w))
  | inl f =>
      exists pre ev,
        calls (run p w) = pre ++ [ev]
        /\ Forall (fun ev => failure_of ev = None) pre
        /\ failure_of ev = Some f
  end.
Proof.
  revert w. induction p as [a | h n k IH | e r k IH]; intros w; simpl.
  - constructor.
  - destruct (host_lookup h n w) as [[f | r] w']; simpl.
    + by exists [], (LookupEv h n (inl f)).
    + specialize (IH r w'). destruct (outcome (run (k r) w')) as [f | a].
      * destruct IH as (pre & ev & -> & Hpre & Hev).
        exists (LookupEv h n (inr r) :: pre), ev. split_and!; by try constructor.
      * by constructor.
  - destruct (host_entry e r w) as [[f | u] w']; simpl.
    + by exists [], (EntryEv e r (inl f)).
    + specialize (IH w'). destruct (outcome (run k w')) as [f | a].
      * destruct IH as (pre & ev & -> & Hpre & Hev).
        exists (EntryEv e r (inr u) :: pre), ev. split_and!; by try constructor.
      * by constructor.
Qed.

(** A run of the loop that returns made a full round over the table. *)
Lemma register_all_full_round registry table w :
  returned (run (register_all registry table) w) ->
  full_round registry table (calls (run (register_all registry table) w)).
Proof.
  revert w. induction table as [| d table IH]; intros w; [done |].
  run_descriptor.
  - by intros [? ?].
  - by intros [? ?].
  - intros Hret. simpl. split_and!; try done. by apply IH.
Qed.

(** Whatever the host answers, the calls made are an initial part of the
    round, in the order of the table. *)
Lemma register_all_prefix registry table w :
  map call_of (calls (run (register_all registry table) w))
  `prefix_of` round_calls registry table.
Proof.
  revert w. induction table as [| d table IH]; intros w; [done |].
  run_descriptor; simpl.
  - apply prefix_cons, prefix_nil.
  - apply prefix_cons, prefix_cons, prefix_nil.
  - apply prefix_cons, prefix_cons, IH.
Qed.

Lemma full_round_calls registry table tr :
  full_round registry table tr ->
  map call_of tr = round_calls registry table.
Proof.
  revert tr. induction table as [| d table IH]; intros tr.
  - by destruct tr.
  - destruct tr as [| [h n [f | r] | ] [| [ | e r' [f' | u]] tr']]; try done.
    simpl. intros (-> & -> & -> & -> & Hrest). by rewrite (IH tr').
Qed.

Lemma full_round_nil registry tr : full_round registry [] tr -> tr = [].
Proof. by destruct tr. Qed.

Lemma full_round_cons registry d table tr :
  full_round registry (d :: table) tr ->
  exists r u tr',
    tr = LookupEv registry (snd d) (inr r) :: EntryEv (fst d) r (inr u) :: tr'
    /\ full_round registry table tr'.
Proof.
  destruct tr as [| [h n [f | r] | ] [| [ | e r' [f' | u]] tr']]; try done.
  simpl. intros (-> & -> & -> & -> & Hrest). by exists r, u, tr'.
Qed.

Lemma full_round_lookup_names registry table tr :
  full_round registry table tr -> lookup_names tr = map snd table.
Proof.
  revert tr. induction table as [| d table IH]; intros tr.
  - by intros ->%full_round_nil.
  - intros (r & u & tr' & -> & Hrest)%full_round_cons.
    simpl map. by rewrite <- (IH tr' Hrest).
Qed.

Lemma full_round_lookup_handles registry table tr :
  full_round registry table tr ->
  lookup_handles tr = map (fun _ => registry) table.
Proof.
  revert tr. induction table as [| d table IH]; intros tr.
  - by intros ->%full_round_nil.
  - intros (r & u & tr' & -> & Hrest)%full_round_cons.
    simpl map. by rewrite <- (IH tr' Hrest).
Qed.

Lemma full_round_entries_invoked registry table tr :
  full_round registry table tr -> entries_invoked tr = map fst table.
Proof.
  revert tr. induction table as [| d table IH]; intros tr.
  - by intros ->%full_round_nil.
  - intros (r & u & tr' & -> & Hrest)%full_round_cons.
    simpl map. by rewrite <- (IH tr' Hrest).
Qed.

(** *** Reading a trace event by event *)

Lemma lookup_names_lookup registry name ans tr :
  lookup_names (LookupEv registry name ans :: tr) = name :: lookup_names tr.
Proof. reflexivity. Qed.

Lemma lookup_names_entry entry (r : Registrar) ans tr :
  lookup_names (EntryEv (Handle := Handle) entry r ans :: tr) = lookup_names tr.
Proof. reflexivity. Qed.

Lemma lookup_handles_lookup registry name ans tr :
  lookup_handles (LookupEv registry name ans :: tr)
  = registry :: lookup_handles tr.
Proof. reflexivity. Qed.

Lemma lookup_handles_entry entry (r : Registrar) ans tr :
  lookup_handles (EntryEv entry r ans :: tr) = lookup_handles tr.
Proof. reflexivity. Qed.

Lemma entries_invoked_lookup registry name ans tr :
  entries_invoked (LookupEv registry name ans :: tr) = entries_invoked tr.
Proof. reflexivity. Qed.

Lemma entries_invoked_entry entry (r : Registrar) ans tr :
  entries_invoked (EntryEv (Handle := Handle) entry r ans :: tr)
  = entry :: entries_invoked tr.
Proof. reflexivity. Qed.

Create Rewrite HintDb trace.

#[local] Hint Rewrite lookup_names_lookup lookup_names_entry
  lookup_handles_lookup lookup_handles_entry
  entries_invoked_lookup entries_invoked_entry : trace.

(** Whatever the host answers, the names asked for are an initial part of
    the names of the table, asked of the handle given, and the entry points
    called are an initial part of the entry points of the table. *)
Lemma register_all_lookup_names_prefix registry table w :
  lookup_names (calls (run (register_all registry table) w))
  `prefix_of` map snd table.
Proof.
  revert w. induction table as [| d table IH]; intros w; [done |].
  run_descriptor; autorewrite with trace; cbn [map].
  - apply prefix_cons, prefix_nil.
  - apply prefix_cons, prefix_nil.
  - apply prefix_cons, IH.
Qed.

Lemma register_all_lookup_handles registry table w :
  Forall (eq registry)
    (lookup_handles (calls (run (register_all registry table) w))).
Proof.
  revert w. induction table as [| d table IH]; intros w; [by constructor |].
  run_descriptor; autorewrite with trace.
  - by repeat constructor.
  - by repeat constructor.
  - constructor; [done | apply IH].
Qed.

Lemma register_all_entries_prefix registry table w :
  entries_invoked (calls (run (register_all registry table) w))
  `prefix_of` map fst table.
Proof.
  revert w. induction table as [| d table IH]; intros w; [done |].
  run_descriptor; autorewrite with trace; cbn [map].
  - apply prefix_nil.
  - apply prefix_cons, prefix_nil.
  - apply prefix_cons, IH.
Qed.

(** Whatever the host answers, a call of an entry point comes right after
    the lookup of the name the table pairs it with, on the handle given, and
    is passed the registrar that lookup returned. *)
Lemma register_all_wired registry table w pre entry r ans post :
  calls (run (register_all registry table) w)
  = pre ++ EntryEv entry r ans :: post ->
  exists pre' name,
    pre = pre' ++ [LookupEv registry name (inr r)] /\ (entry, name) ∈ table.
Proof.
  revert w pre. induction table as [| d table IH]; intros w pre.
  { simpl. by destruct pre. }
  assert ((fst d, snd d) ∈ d :: table) as Hhere by (destruct d; left).
  run_descriptor.
  - destruct pre as [| x [| y pre]]; intros Heq; simplify_eq/=.
  - destruct pre as [| x [| y pre]]; intros Heq; simplify_eq/=.
    + exists [], (snd d). split; [reflexivity | exact Hhere].
    + by destruct pre.
  - destruct pre as [| x [| y pre]]; intros Heq; simplify_eq/=.
    + exists [], (snd d). split; [reflexivity | exact Hhere].
    + match goal with
      | Hrest : calls _ = _ |- _ =>
          apply IH in Hrest as (pre' & name & -> & Hin)
      end.
      exists (LookupEv registry (snd d) (inr r0)
                :: EntryEv (fst d) r0 (inr u) :: pre'), name.
      split; [done | by right].
Qed.

(** *** Counting occurrences *)

Lemma count_prefix {A : Type} `{EqDecision A} (x : A) (l1 l2 : list A) :
  l1 `prefix_of` l2 ->
  length (filter (fun y => y = x) l1) <= length (filter (fun y => y = x) l2).
Proof. intros [k ->]. rewrite filter_app, length_app. lia. Qed.

Lemma count_not_elem {A : Type} `{EqDecision A} (x : A) (l : list A) :
  x ∉ l -> length (filter (fun y => y = x) l) = 0.
Proof.
  induction l as [| y l IH]; [done |]. intros Hx.
  rewrite filter_cons. case_decide as Heq.
  - subst y. set_solver.
  - apply IH. set_solver.
Qed.

Lemma count_NoDup {A : Type} `{EqDecision A} (x : A) (l : list A) :
  NoDup l -> length (filter (fun y => y = x) l) <= 1.
Proof.
  induction 1 as [| y l Hy _ IH]; [simpl; lia |].
  rewrite filter_cons. case_decide as Heq; [| done]. subst y.
  simpl. rewrite count_not_elem by done. lia.
Qed.

Lemma NoDup_prefix {A : Type} (l1 l2 : list A) :
  l1 `prefix_of` l2 -> NoDup l2 -> NoDup l1.
Proof. intros [k ->] Hnd. by apply NoDup_app in Hnd as [? _]. Qed.

Lemma NoDup_plugin_names : NoDup (map snd plugin_table).
Proof. by apply (bool_decide_unpack (NoDup (map snd plugin_table))). Qed.

Lemma NoDup_plugin_entries : NoDup (map fst plugin_table).
Proof. by apply (bool_decide_unpack (NoDup (map fst plugin_table))). Qed.

(** The table pairs every entry point with the name of its own plugin. *)
Lemma plugin_table_canonical entry name :
  (entry, name) ∈ plugin_table -> name = canonical_name entry.
Proof.
  unfold plugin_table. intros Hin. set_unfold in Hin.
  by destruct_or!; simplify_eq.
Qed.

(** ** The routine *)

Lemma RegisterPlugins_table registry :
  RegisterPlugins (Registrar := Registrar) registry
  = register_all registry plugin_table.
Proof. reflexivity. Qed.

Lemma RegisterPlugins_full_round registry w :
  returned (run (RegisterPlugins registry) w) ->
  full_round registry plugin_table (calls (run (RegisterPlugins registry) w)).
Proof. rewrite RegisterPlugins_table. apply register_all_full_round. Qed.

Lemma round_calls_plugin_table registry :
  round_calls registry plugin_table = RegisterPlugins_order registry.
Proof. reflexivity. Qed.

Lemma canonical_name_table :
  map (fun e => (e, canonical_name e)) all_entry_points = plugin_table.
Proof. reflexivity. Qed.

Lemma known_plugin_names_table :
  known_plugin_names = list_to_set (map snd plugin_table).
Proof. unfold known_plugin_names. simpl. set_solver. Qed.

(** C1: an invocation asks the registry, on the handle it was given, for
    known plugin names only and for none of them twice, whatever the host
    answers; an invocation that runs to completion asks exactly once for each
    of the eight known names, eight lookups in all. *)
Theorem RegisterPlugins_one_lookup_per_name registry w :
  let tr := calls (run (RegisterPlugins registry) w) in
  NoDup (lookup_names tr)
  /\ (forall h, h ∈ lookup_handles tr -> h = registry)
  /\ (forall name, name ∉ known_plugin_names -> lookups_of name tr = 0)
  /\ (forall name, lookups_of name tr <= 1)
  /\ (returned (run (RegisterPlugins registry) w) ->
      length (lookup_names tr) = 8
      /\ forall name, name ∈ known_plugin_names -> lookups_of name tr = 1).
Proof.
  cbv zeta. unfold lookups_of. rewrite RegisterPlugins_table.
  pose proof (register_all_lookup_names_prefix registry plugin_table w)
    as Hprefix.
  split_and!.
  - eapply NoDup_prefix; [done | apply NoDup_plugin_names].
  - intros h Hh. symmetry. revert h Hh. apply Forall_forall.
    apply register_all_lookup_handles.
  - intros name Hname.
    pose proof (count_prefix name _ _ Hprefix) as Hle.
    rewrite (count_not_elem name (map snd plugin_table)) in Hle; [lia |].
    rewrite known_plugin_names_table in Hname. set_solver.
  - intros name.
    pose proof (count_prefix name _ _ Hprefix) as Hle.
    pose proof (count_NoDup name _ NoDup_plugin_names). lia.
  - intros Hround%register_all_full_round.
    rewrite (full_round_lookup_names _ _ _ Hround). split; [done |].
    intros name Hname. unfold known_plugin_names in Hname.
    set_unfold in Hname. by destruct_or!; subst name.
Qed.

(** C2: the names an invocation passes to [GetRegistrarForPlugin], taken as
    a set, are among the fixed known names whatever the host answers, and are
    exactly the fixed known set when the invocation runs to completion. *)
Theorem RegisterPlugins_names_requested registry w :
  let requested : gset string :=
    list_to_set (lookup_names (calls (run (RegisterPlugins registry) w))) in
  requested ⊆ known_plugin_names
  /\ (returned (run (RegisterPlugins registry) w) ->
      requested = known_plugin_names).
Proof.
  cbv zeta. rewrite RegisterPlugins_table, known_plugin_names_table. split.
  - destruct (register_all_lookup_names_prefix registry plugin_table w)
      as [k ->].
    rewrite list_to_set_app_L. set_solver.
  - intros Hround%register_all_full_round.
    by rewrite (full_round_lookup_names _ _ _ Hround).
Qed.

(** C3: whatever the host answers, an entry point is called right after the
    lookup of its own plugin's name and with the registrar that lookup
    returned, and no entry point is called twice; in an invocation that runs
    to completion every entry point is called exactly once, with the one
    registrar the registry gave out for the plugin's own name. *)
Theorem RegisterPlugins_wiring registry w :
  let tr := calls (run (RegisterPlugins registry) w) in
  (forall pre entry r ans post,
     tr = pre ++ EntryEv entry r ans :: post ->
     exists pre',
       pre = pre' ++ [LookupEv registry (canonical_name entry) (inr r)])
  /\ (forall entry, invocations_of entry tr <= 1)
  /\ (returned (run (RegisterPlugins registry) w) ->
      forall entry : EntryPoint,
        invocations_of entry tr = 1
        /\ exists r : Registrar,
             registrars_passed entry tr = [r]
             /\ registrars_obtained (canonical_name entry) tr = [r]).
Proof.
  cbv zeta. split_and!.
  - intros pre entry r ans post Htr. rewrite RegisterPlugins_table in Htr.
    apply register_all_wired in Htr as (pre' & name & -> & Hin).
    apply plugin_table_canonical in Hin as ->. by exists pre'.
  - intros entry. unfold invocations_of. rewrite RegisterPlugins_table.
    pose proof (register_all_entries_prefix registry plugin_table w)
      as Hprefix.
    pose proof (count_prefix entry _ _ Hprefix) as Hle.
    pose proof (count_NoDup entry _ NoDup_plugin_entries). lia.
  - intros Hround%RegisterPlugins_full_round.
    set (tr := calls _) in *. clearbody tr.
    unfold plugin_table in Hround.
    repeat match type of Hround with
           | full_round _ (_ :: _) _ =>
               apply full_round_cons in Hround as (? & ? & ? & -> & Hround)
           end.
    apply full_round_nil in Hround as ->.
    intros entry.
    destruct entry; (split; [reflexivity | eexists; split; reflexivity]).
Qed.

Lemma RegisterPlugins_prefix_of_order registry w :
  map call_of (calls (run (RegisterPlugins registry) w))
    `prefix_of` RegisterPlugins_order registry.
Proof.
  rewrite <- round_calls_plugin_table, RegisterPlugins_table.
  apply register_all_prefix.
Qed.

Lemma RegisterPlugins_whole_order registry w :
  returned (run (RegisterPlugins registry) w) ->
  map call_of (calls (run (RegisterPlugins registry) w))
  = RegisterPlugins_order registry.
Proof.
  rewrite <- round_calls_plugin_table. intros Hret.
  by apply full_round_calls, RegisterPlugins_full_round.
Qed.

(** C9: the calls of an invocation follow one fixed order, a plugin's lookup
    and then at once its entry point, plugin after plugin: whatever the host
    answers, the calls made are an initial part of that order, and an
    invocation that runs to completion makes all of them. *)
Theorem RegisterPlugins_fixed_order registry w :
  map call_of (calls (run (RegisterPlugins registry) w))
    `prefix_of` RegisterPlugins_order registry
  /\ (returned (run (RegisterPlugins registry) w) ->
      map call_of (calls (run (RegisterPlugins registry) w))
      = RegisterPlugins_order registry).
Proof.
  split; [apply RegisterPlugins_prefix_of_order |].
  apply RegisterPlugins_whole_order.
Qed.

(** C4: when the handle is no good, so that the first thing asked of it
    fails, the invocation fails with that failure at once: the one lookup is
    the only call made, no entry point is called, and the invocation does not
    return. *)
Theorem RegisterPlugins_invalid_handle registry w f w' :
  host_lookup registry "BatteryPlusWindowsPlugin" w = (inl f, w') ->
  run (RegisterPlugins registry) w
  = mkResult (inl f) w'
      [LookupEv registry "BatteryPlusWindowsPlugin" (inl f)]
  /\ entries_invoked (calls (run (RegisterPlugins registry) w)) = []
  /\ ~ returned (run (RegisterPlugins registry) w).
Proof.
  intros Hfirst.
  assert (run (RegisterPlugins registry) w
          = mkResult (inl f) w'
              [LookupEv registry "BatteryPlusWindowsPlugin" (inl f)]) as ->.
  { rewrite RegisterPlugins_table. unfold plugin_table.
    rewrite run_register_all_cons. simpl fst. simpl snd. by rewrite Hfirst. }
  split_and!; [done | done |]. by intros [? ?].
Qed.

(** C6: invoking the routine again makes a second full round: the calls of
    two invocations in a row that both run to completion are those of the
    first followed by those of a second invocation started where the first
    ended, and each is the whole fixed sequence of eight lookups and eight
    entry point calls. *)
Theorem RegisterPlugins_second_round registry w :
  returned (run (RegisterPlugins registry ;; RegisterPlugins registry) w) ->
  let first := run (RegisterPlugins registry) w in
  let second := run (RegisterPlugins registry) (final first) in
  calls (run (RegisterPlugins registry ;; RegisterPlugins registry) w)
  = calls first ++ calls second
  /\ final (run (RegisterPlugins registry ;; RegisterPlugins registry) w)
    = final second
  /\ map call_of (calls first) = RegisterPlugins_order registry
  /\ map call_of (calls second) = RegisterPlugins_order registry.
Proof.
  cbv zeta. rewrite run_bind.
  destruct (outcome (run (RegisterPlugins registry) w)) as [f | []] eqn:Hfirst.
  { by intros [? ?]. }
  cbv zeta. intros [u Hsecond]. simpl in Hsecond.
  split_and!; [done | done | |].
  - apply RegisterPlugins_whole_order. by exists ().
  - apply RegisterPlugins_whole_order. by exists u.
Qed.

(** ** How far an invocation gets *)

(** A run over a table either returns after a full round, or fails having
    made a full round over a leading part of the table and then stopped in
    the next descriptor, at its lookup or at its entry point. *)
Lemma register_all_progress registry table w :
  (returned (run (register_all registry table) w)
   /\ full_round registry table (calls (run (register_all registry table) w)))
  \/ exists f done d rest tr_done,
       outcome (run (register_all registry table) w) = inl f
       /\ table = done ++ d :: rest
       /\ full_round registry done tr_done
       /\ (calls (run (register_all registry table) w)
            = tr_done ++ [LookupEv registry (snd d) (inl f)]
           \/ exists reg,
                calls (run (register_all registry table) w)
                = tr_done ++ [LookupEv registry (snd d) (inr reg);
                              EntryEv (fst d) reg (inl f)]).
Proof.
  revert w. induction table as [| d table IH]; intros w.
  { left. split; [by exists () | done]. }
  run_descriptor.
  - right. exists f, [], d, table, []. split_and!; try done. by left.
  - right. exists f, [], d, table, []. split_and!; try done.
    right. by exists r.
  - destruct (IH w1) as [[[a Hret] Hround]
                        | (f & done & d' & rest & tr_done
                           & Hout & -> & Hdone & Hstop)].
    + left. split; [by exists a |]. simpl. by split_and!.
    + right.
      exists f, (d :: done), d', rest,
        (LookupEv registry (snd d) (inr r)
           :: EntryEv (fst d) r (inr u) :: tr_done).
      split_and!; [done | done | simpl; by split_and! |].
      destruct Hstop as [-> | [reg ->]]; [by left | right; by exists reg].
Qed.

(** Whatever the host answers, a lookup that is answered is followed at
    once by the call of the entry point the table pairs with the name, on
    the registrar the lookup returned. *)
Lemma register_all_registrar_used registry table w pre h name reg post :
  calls (run (register_all registry table) w)
  = pre ++ LookupEv h name (inr reg) :: post ->
  h = registry
  /\ exists entry ans post',
       post = EntryEv entry reg ans :: post' /\ (entry, name) ∈ table.
Proof.
  revert w pre. induction table as [| d table IH]; intros w pre.
  { simpl. by destruct pre. }
  assert ((fst d, snd d) ∈ d :: table) as Hhere by (destruct d; left).
  run_descriptor.
  - destruct pre as [| x [| y pre]]; intros Heq; simplify_eq/=.
  - destruct pre as [| x [| y pre]]; intros Heq; simplify_eq/=.
    + split; [done |]. by eexists _, _, [].
    + by destruct pre.
  - destruct pre as [| x [| y pre]]; intros Heq; simplify_eq/=.
    + split; [done |]. by eexists _, _, _.
    + match goal with
      | Hrest : calls _ = _ |- _ =>
          apply IH in Hrest as (-> & entry & ans & post' & -> & Hin)
      end.
      split; [done |]. exists entry, ans, post'. split; [done | by right].
Qed.

(** *** Where a failure leaves the round *)

Lemma lookup_names_app tr1 tr2 :
  lookup_names (tr1 ++ tr2) = lookup_names tr1 ++ lookup_names tr2.
Proof. apply omap_app. Qed.

Lemma entries_invoked_app tr1 tr2 :
  entries_invoked (tr1 ++ tr2) = entries_invoked tr1 ++ entries_invoked tr2.
Proof. apply omap_app. Qed.

Lemma full_round_answered registry table tr :
  full_round registry table tr ->
  Forall (fun ev => failure_of ev = None) tr.
Proof.
  revert tr. induction table as [| d table IH]; intros tr.
  - intros ->%full_round_nil. constructor.
  - intros (r & u & tr' & -> & Hrest)%full_round_cons.
    repeat (constructor; [done |]). by apply IH.
Qed.

(** In a list whose calls were all answered but the last, a call that failed
    is the last. *)
Lemma failed_call_last (answered : list (Event Handle Registrar Failure))
  last pre ev post f :
  pre ++ ev :: post = answered ++ [last] ->
  Forall (fun ev => failure_of ev = None) answered ->
  failure_of ev = Some f ->
  post = [] /\ pre = answered /\ ev = last.
Proof.
  intros Heq Hanswered Hev.
  destruct post as [| x post _] using rev_ind.
  - by apply app_inj_tail in Heq as [-> ->].
  - change (pre ++ ev :: post ++ [x]) with (pre ++ (ev :: post) ++ [x]) in Heq.
    rewrite app_assoc in Heq. apply app_inj_tail in Heq as [<- _].
    apply Forall_app in Hanswered as [_ Hbad].
    apply Forall_cons in Hbad as [Hbad _]. congruence.
Qed.

(** What comes later in a list without repetitions is not among what comes
    earlier. *)
Lemma NoDup_later_not_earlier {A : Type} (l1 l2 : list A) (x y : A) :
  NoDup (l1 ++ x :: l2) -> y ∈ l2 -> y ∉ l1 ++ [x].
Proof.
  change (l1 ++ x :: l2) with (l1 ++ [x] ++ l2). rewrite app_assoc.
  intros (_ & Hdisjoint & _)%NoDup_app Hy Hearlier.
  by apply (Hdisjoint y).
Qed.

(** A failing call over a table without repeated names or entry points: it
    ends the run with its failure; the descriptors before the one it belongs
    to were gone through in full; of that descriptor the lookup failed, with
    its entry point left uncalled, or the lookup was answered and the entry
    point failed; and of the descriptors after it nothing was looked up and
    nothing called. *)
Lemma register_all_failure registry table w pre ev post f :
  NoDup (map snd table) -> NoDup (map fst table) ->
  calls (run (register_all registry table) w) = pre ++ ev :: post ->
  failure_of ev = Some f ->
  post = []
  /\ outcome (run (register_all registry table) w) = inl f
  /\ exists done d rest,
       table = done ++ d :: rest
       /\ ((ev = LookupEv registry (snd d) (inl f)
            /\ full_round registry done pre
            /\ invocations_of (fst d)
                 (calls (run (register_all registry table) w)) = 0)
           \/ (exists reg tr_done,
                 ev = EntryEv (fst d) reg (inl f)
                 /\ pre = tr_done ++ [LookupEv registry (snd d) (inr reg)]
                 /\ full_round registry done tr_done))
       /\ (forall d', d' ∈ rest ->
             lookups_of (snd d')
               (calls (run (register_all registry table) w)) = 0
             /\ invocations_of (fst d')
                  (calls (run (register_all registry table) w)) = 0).
Proof.
  intros Hnames Hentries Hcalls Hev.
  destruct (register_all_progress registry table w)
    as [[_ Hround]
       | (f' & done & d & rest & tr_done & Hout & -> & Hdone & Hstop)].
  { apply full_round_answered in Hround. rewrite Hcalls in Hround.
    apply Forall_app in Hround as [_ Hbad].
    apply Forall_cons in Hbad as [Hbad _]. congruence. }
  pose proof (full_round_answered _ _ _ Hdone) as Hanswered.
  pose proof (full_round_lookup_names _ _ _ Hdone) as Hdone_names.
  pose proof (full_round_entries_invoked _ _ _ Hdone) as Hdone_entries.
  rewrite map_app in Hnames, Hentries. cbn [map] in Hnames, Hentries.
  unfold lookups_of, invocations_of. rewrite Hout.
  destruct Hstop as [Hstop | [reg Hstop]]; rewrite Hstop in Hcalls |- *;
    symmetry in Hcalls.
  - apply (failed_call_last _ _ _ _ _ f) in Hcalls as (-> & -> & ->);
      [| done | done].
    cbn [failure_of] in Hev. simplify_eq.
    split_and!; [done | done |]. exists done, d, rest. split; [done |].
    rewrite lookup_names_app, entries_invoked_app, Hdone_names, Hdone_entries.
    cbn [lookup_names entries_invoked omap list_omap app].
    rewrite app_nil_r. split.
    + left. split_and!; [done | done |]. apply count_not_elem.
      apply NoDup_app in Hentries as (_ & Hdisjoint & _).
      intros Hin. apply (Hdisjoint _ Hin). left.
    + intros d' Hd'. split; apply count_not_elem.
      * apply (NoDup_later_not_earlier _ (map snd rest) _ (snd d') Hnames).
        by apply (list_elem_of_fmap_2 snd).
      * intros Hin.
        apply (NoDup_later_not_earlier _ (map fst rest) _ (fst d') Hentries);
          [by apply (list_elem_of_fmap_2 fst) |].
        apply elem_of_app. by left.
  - change (tr_done ++ [LookupEv registry (snd d) (inr reg);
                        EntryEv (fst d) reg (inl f')])
      with (tr_done ++ [LookupEv registry (snd d) (inr reg)]
              ++ [EntryEv (fst d) reg (inl f')]) in Hcalls |- *.
    rewrite app_assoc in Hcalls |- *.
    apply (failed_call_last _ _ _ _ _ f) in Hcalls as (-> & -> & ->);
      [| apply Forall_app; split; [done | by repeat constructor] | done].
    cbn [failure_of] in Hev. simplify_eq.
    split_and!; [done | done |]. exists done, d, rest. split; [done |].
    split; [right; by exists reg, tr_done |].
    rewrite !lookup_names_app, !entries_invoked_app,
      Hdone_names, Hdone_entries.
    cbn [lookup_names entries_invoked omap list_omap app].
    rewrite !app_nil_r.
    intros d' Hd'. split; apply count_not_elem.
    + apply (NoDup_later_not_earlier _ (map snd rest) _ (snd d') Hnames).
      by apply (list_elem_of_fmap_2 snd).
    + apply (NoDup_later_not_earlier _ (map fst rest) _ (fst d') Hentries).
      by apply (list_elem_of_fmap_2 fst).
Qed.

(** C5: a call of the routine that fails is its last call, and the
    invocation ends with that very failure.  The plugins before the failing
    one in the order of the routine were each looked up and registered; of
    the failing plugin the lookup failed, and its entry point was not called,
    or the lookup was answered and the entry point failed; and for the
    plugins after it nothing was looked up and no entry point was called. *)
Theorem RegisterPlugins_failure_propagates registry w pre ev post f :
  calls (run (RegisterPlugins registry) w) = pre ++ ev :: post ->
  failure_of ev = Some f ->
  post = []
  /\ outcome (run (RegisterPlugins registry) w) = inl f
  /\ exists done d rest,
       plugin_table = done ++ d :: rest
       /\ ((ev = LookupEv registry (snd d) (inl f)
            /\ full_round registry done pre
            /\ invocations_of (fst d)
                 (calls (run (RegisterPlugins registry) w)) = 0)
           \/ (exists reg tr_done,
                 ev = EntryEv (fst d) reg (inl f)
                 /\ pre = tr_done ++ [LookupEv registry (snd d) (inr reg)]
                 /\ full_round registry done tr_done))
       /\ (forall d', d' ∈ rest ->
             lookups_of (snd d') (calls (run (RegisterPlugins registry) w)) = 0
             /\ invocations_of (fst d')
                  (calls (run (RegisterPlugins registry) w)) = 0).
Proof.
  rewrite RegisterPlugins_table.
  apply register_all_failure;
    [apply NoDup_plugin_names | apply NoDup_plugin_entries].
Qed.

(** X1: an invocation either runs to completion, making the full round of the
    eight plugins, or fails at the first call that fails: then the plugins
    before the failing one were each looked up and registered, in the order
    of the routine, the failing plugin's lookup failed or was answered and
    its entry point failed, and nothing was called for the plugins after
    it. *)
Theorem RegisterPlugins_progress registry w :
  (returned (run (RegisterPlugins registry) w)
   /\ full_round registry plugin_table
        (calls (run (RegisterPlugins registry) w)))
  \/ exists f done d rest tr_done,
       outcome (run (RegisterPlugins registry) w) = inl f
       /\ plugin_table = done ++ d :: rest
       /\ full_round registry done tr_done
       /\ (calls (run (RegisterPlugins registry) w)
            = tr_done ++ [LookupEv registry (snd d) (inl f)]
           \/ exists reg,
                calls (run (RegisterPlugins registry) w)
                = tr_done ++ [LookupEv registry (snd d) (inr reg);
                              EntryEv (fst d) reg (inl f)]).
Proof. rewrite RegisterPlugins_table. apply register_all_progress. Qed.

(** X2: whatever the host answers, no registrar is obtained and then dropped or
    kept for later: a lookup that is answered was made on the handle given
    and is followed at once by the call of the entry point of the plugin of
    that name, on the registrar just returned. *)
Theorem RegisterPlugins_registrar_used registry w pre h name reg post :
  calls (run (RegisterPlugins registry) w)
  = pre ++ LookupEv h name (inr reg) :: post ->
  h = registry
  /\ exists entry ans post',
       post = EntryEv entry reg ans :: post'
       /\ name = canonical_name entry.
Proof.
  rewrite RegisterPlugins_table.
  intros (-> & entry & ans & post' & -> & Hin)%register_all_registrar_used.
  split; [done |]. exists entry, ans, post'. split; [done |].
  by apply plugin_table_canonical.
Qed.

(** ** Invoking the routine several times *)

(** X4: any number of invocations in a row that all run to completion make that
    many full rounds, one after the other: nothing the routine keeps stops
    or shortens a later round. *)
Theorem invocations_rounds n registry w :
  returned (run (invocations n registry) w) ->
  map call_of (calls (run (invocations n registry) w))
  = concat (replicate n (RegisterPlugins_order registry))
  /\ forall name, name ∈ known_plugin_names ->
       lookups_of name (calls (run (invocations n registry) w)) = n.
Proof.
  revert w. induction n as [| n IH]; intros w.
  { intros _. split; [done |]. by intros name _. }
  cbn [invocations]. rewrite run_bind.
  destruct (outcome (run (RegisterPlugins registry) w)) as [f | []] eqn:Hfirst.
  { by intros [? ?]. }
  cbv zeta. intros [u Hrest]. cbn [outcome] in Hrest. cbn [calls].
  assert (returned (run (RegisterPlugins registry) w)) as Hret
    by (by exists ()).
  destruct (IH (final (run (RegisterPlugins registry) w))) as [Hcalls Hcount];
    [by exists u |].
  split.
  - rewrite map_app, Hcalls, (RegisterPlugins_whole_order _ _ Hret). done.
  - intros name Hname. unfold lookups_of, lookup_names in *.
    rewrite omap_app, filter_app, length_app, (Hcount name Hname).
    apply RegisterPlugins_full_round, full_round_lookup_names in Hret.
    unfold lookup_names in Hret. rewrite Hret.
    unfold known_plugin_names in Hname. set_unfold in Hname.
    by destruct_or!; subst name.
Qed.

(** ** What the routine leaves of the world *)

Lemma register_all_invariant (I : World -> Prop) registry table w :
  (forall d w, d ∈ table -> I w ->
     I (snd (host_lookup registry (snd d) w))) ->
  (forall d w r w1, d ∈ table -> I w ->
     host_lookup registry (snd d) w = (inr r, w1) ->
     I (snd (host_entry (fst d) r w1))) ->
  I w -> I (final (run (register_all registry table) w)).
Proof.
  revert w. induction table as [| d table IH]; intros w Hlookup Hentry Hw;
    [done |].
  assert (d ∈ d :: table) as Hhere by left.
  pose proof (Hlookup d w Hhere Hw) as Hw1.
  pose proof (Hentry d w) as Hstep.
  rewrite run_register_all_cons.
  destruct (host_lookup registry (snd d) w) as [[f | r] w1]; [done |].
  specialize (Hstep r w1 Hhere Hw eq_refl).
  destruct (host_entry (fst d) r w1) as [[f | u] w2]; [done |].
  cbn [after final]. apply IH; [| | done].
  - intros d' w' Hd'. apply Hlookup. by right.
  - intros d' w' r' w1' Hd'. apply Hentry. by right.
Qed.

(** X5: the routine does nothing to the world but through the calls it makes:
    a property of the world that is kept by each lookup of a plugin's name
    on the handle, and by each call of a plugin's entry point on the
    registrar such a lookup returned, still holds when the invocation ends,
    whether it returns or fails part of the way. *)
Theorem RegisterPlugins_invariant (I : World -> Prop) registry w :
  (forall entry w,
     I w -> I (snd (host_lookup registry (canonical_name entry) w))) ->
  (forall entry w r w1,
     I w ->
     host_lookup registry (canonical_name entry) w = (inr r, w1) ->
     I (snd (host_entry entry r w1))) ->
  I w -> I (final (run (RegisterPlugins registry) w)).
Proof.
  intros Hlookup Hentry. rewrite RegisterPlugins_table.
  apply register_all_invariant.
  - intros [entry name] w' ->%plugin_table_canonical. apply Hlookup.
  - intros [entry name] w' r w1 ->%plugin_table_canonical. apply Hentry.
Qed.

(** ** Hosts that may answer in more than one way *)

Lemma exec_run {A : Type} (p : Prog Handle Registrar A) w :
  exec (R := graph_of _) p w (run p w).
Proof.
  revert w. induction p as [a | h n k IH | e r k IH]; intros w; cbn [run].
  - constructor.
  - destruct (host_lookup h n w) as [[f | r] w'] eqn:Hans.
    + by apply (exec_lookup_fails h n k w f w').
    + by apply (exec_lookup h n k w r w').
  - destruct (host_entry e r w) as [[f | u] w'] eqn:Hans.
    + by apply (exec_entry_fails e r k w f w').
    + by apply (exec_entry e r k w u w').
Qed.

Lemma exec_deterministic (R : HostRel Handle Registrar World Failure)
  {A : Type} (p : Prog Handle Registrar A) w r1 r2 :
  deterministic R -> exec p w r1 -> exec p w r2 -> r1 = r2.
Proof.
  intros [Hlookup Hentry] H1. revert r2.
  induction H1 as [a w | h n k w f w' Hans | h n k w r w' res Hans Hrest IH
                  | e r k w f w' Hans | e r k w u w' res Hans Hrest IH];
    intros r2 H2; inversion H2; subst; try done;
    match goal with
    | Ha : lookup_rel _ _ _ _, Hb : lookup_rel _ _ _ _ |- _ =>
        pose proof (Hlookup _ _ _ _ _ Ha Hb) as Heq
    | Ha : entry_rel _ _ _ _, Hb : entry_rel _ _ _ _ |- _ =>
        pose proof (Hentry _ _ _ _ _ Ha Hb) as Heq
    end; simplify_eq; try done; f_equal; by apply IH.
Qed.

Lemma graph_of_deterministic : deterministic (graph_of _).
Proof. split; simpl; congruence. Qed.

(** Over a functional host the two semantics agree. *)
Lemma exec_graph_of {A : Type} (p : Prog Handle Registrar A) w r :
  exec (R := graph_of _) p w r <-> r = run p w.
Proof.
  split; [| intros ->; apply exec_run].
  intros Hexec.
  apply (exec_deterministic (graph_of _) p w); [| done | apply exec_run].
  apply graph_of_deterministic.
Qed.

(** Two executions over a table, against two hosts that may answer in more
    than one way: when the hosts leave no choice and agree on the lookups of
    the names of the table on the handle, and on the calls of the table's
    entry points on the registrars those lookups return, the executions are
    the same. *)
Lemma exec_register_all_agree (R1 R2 : HostRel Handle Registrar World Failure)
  registry table w r1 r2 :
  (forall d w a1 a2, d ∈ table ->
     @lookup_rel _ _ _ _ R1 registry (snd d) w a1 ->
     @lookup_rel _ _ _ _ R2 registry (snd d) w a2 -> a1 = a2) ->
  (forall d w r w1 a1 a2, d ∈ table ->
     @lookup_rel _ _ _ _ R1 registry (snd d) w (inr r, w1) ->
     @entry_rel _ _ _ _ R1 (fst d) r w1 a1 ->
     @entry_rel _ _ _ _ R2 (fst d) r w1 a2 -> a1 = a2) ->
  exec (R := R1) (register_all registry table) w r1 ->
  exec (R := R2) (register_all registry table) w r2 ->
  r1 = r2.
Proof.
  revert w r1 r2. induction table as [| d table IH];
    intros w r1 r2 Hlookup Hentry H1 H2.
  { inversion H1. by inversion H2. }
  assert (d ∈ d :: table) as Hhere by left.
  simpl in H1, H2.
  inversion H1 as [| ? ? ? ? f1 w1 Ha1 | ? ? ? ? reg1 w1 res1 Ha1 Hk1 | |];
    inversion H2 as [| ? ? ? ? f2 w2 Ha2 | ? ? ? ? reg2 w2 res2 Ha2 Hk2 | |];
    subst; pose proof (Hlookup d w _ _ Hhere Ha1 Ha2) as Heq;
    simplify_eq; [done |].
  simpl in Hk1, Hk2.
  inversion Hk1 as [| | | ? ? ? ? g1 v1 Hb1 | ? ? ? ? u1 v1 rest1 Hb1 Hrest1];
    inversion Hk2 as [| | | ? ? ? ? g2 v2 Hb2 | ? ? ? ? u2 v2 rest2 Hb2 Hrest2];
    subst; pose proof (Hentry d w _ _ _ _ Hhere Ha1 Hb1 Hb2) as Heq;
    simplify_eq; [done |].
  do 2 f_equal. apply (IH v2); [| | done | done].
  - intros d' w' a1 a2 Hd'. apply Hlookup. by right.
  - intros d' w' r' w1' a1 a2 Hd'. apply Hentry. by right.
Qed.

(** C10: what an invocation does is decided by its handle, the state it
    starts from, and the answers to the calls the routine itself makes:
    take two invocations on the same handle from the same state, in
    surroundings that may differ or answer at will in every other respect,
    but that leave no choice and agree on the lookups of the plugins' own
    names on the handle and on the calls of the plugins' entry points on the
    registrars so obtained; then both make the same calls, get the same
    answers, end alike and leave the same state. *)
Theorem RegisterPlugins_deterministic
  (R1 R2 : HostRel Handle Registrar World Failure) registry w r1 r2 :
  (forall entry w a1 a2,
     @lookup_rel _ _ _ _ R1 registry (canonical_name entry) w a1 ->
     @lookup_rel _ _ _ _ R2 registry (canonical_name entry) w a2 ->
     a1 = a2) ->
  (forall entry w r w1 a1 a2,
     @lookup_rel _ _ _ _ R1 registry (canonical_name entry) w (inr r, w1) ->
     @entry_rel _ _ _ _ R1 entry r w1 a1 ->
     @entry_rel _ _ _ _ R2 entry r w1 a2 ->
     a1 = a2) ->
  exec (R := R1) (RegisterPlugins registry) w r1 ->
  exec (R := R2) (RegisterPlugins registry) w r2 ->
  calls r1 = calls r2 /\ final r1 = final r2 /\ outcome r1 = outcome r2.
Proof.
  intros Hlookup Hentry H1 H2. rewrite RegisterPlugins_table in H1, H2.
  assert (r1 = r2) as ->; [| done].
  apply (exec_register_all_agree R1 R2 registry plugin_table w); [| | done..].
  - intros [entry name] w' a1 a2 ->%plugin_table_canonical. apply Hlookup.
  - intros [entry name] w' r w1 a1 a2 ->%plugin_table_canonical.
    apply Hentry.
Qed.

End Correctness.

(** ** Running against a stand-in host *)

Section StandIn.
Context {Handle1 Registrar1 World1 Failure1 : Type}.
Context {Handle2 Registrar2 World2 Failure2 : Type}.
Context (H1 : Host Handle1 Registrar1 World1 Failure1).
Context (H2 : Host Handle2 Registrar2 World2 Failure2).
Context (eta : Handle1 -> Handle2) (g : Registrar1 -> Registrar2).
Context (phi : World1 -> World2) (eps : Failure1 -> Failure2).

Lemma register_all_stands_in registry (table : list Descriptor) w :
  (forall d w, d ∈ table ->
     host_lookup (eta registry) (snd d) (phi w)
     = prod_map (sum_map eps g) phi (host_lookup registry (snd d) w)) ->
  (forall d w r w1, d ∈ table ->
     host_lookup registry (snd d) w = (inr r, w1) ->
     host_entry (fst d) (g r) (phi w1)
     = prod_map (sum_map eps id) phi (host_entry (fst d) r w1)) ->
  run (H := H2) (register_all (eta registry) table) (phi w)
  = translate_result eta g phi eps
      (run (H := H1) (register_all registry table) w).
Proof.
  revert w. induction table as [| d table IH]; intros w Hlookup Hentry;
    [done |].
  assert (d ∈ d :: table) as Hhere by left.
  pose proof (Hentry d w) as Hstep.
  rewrite !run_register_all_cons, (Hlookup d w Hhere).
  destruct (host_lookup registry (snd d) w) as [[f | r] w1]; [done |].
  cbn [prod_map sum_map fst snd]. rewrite (Hstep r w1 Hhere eq_refl).
  destruct (host_entry (fst d) r w1) as [[f | u] w2]; [done |].
  cbn [prod_map sum_map fst snd]. rewrite IH; [done | |].
  - intros d' w' Hd'. apply Hlookup. by right.
  - intros d' w' r' w1' Hd'. apply Hentry. by right.
Qed.

(** X3: a host that stands in for another on the calls of the routine, the
    lookups of the plugins' own names on the handle and the calls of the
    plugins' entry points on the registrars so obtained, cannot be told from
    it by an invocation, however the two differ elsewhere: against the
    stand-in the routine makes the translated calls, gets the translated
    answers and ends with the translated outcome and world. *)
Theorem RegisterPlugins_stands_in registry w :
  stands_in eta g phi eps H1 H2 registry ->
  run (H := H2) (RegisterPlugins (eta registry)) (phi w)
  = translate_result eta g phi eps
      (run (H := H1) (RegisterPlugins registry) w).
Proof.
  intros [Hlookup Hentry]. rewrite !RegisterPlugins_table.
  apply register_all_stands_in.
  - intros [entry name] w' ->%plugin_table_canonical. apply Hlookup.
  - intros [entry name] w' r w1 ->%plugin_table_canonical. apply Hentry.
Qed.

End StandIn.

(** ** On the registry of plugin slots *)

Section SlotRegistryFacts.
Import SlotRegistry.

Implicit Types (w : gmap string (list EntryPoint)).
Implicit Types (table : list Descriptor) (d : Descriptor).

Lemma slot_run_register_all table w :
  run (register_all TheRegistry table) w
  = mkResult (inr tt) (foldl register_slot w table)
      (calls (run (register_all TheRegistry table) w)).
Proof.
  revert w. induction table as [| d table IH]; intros w; [done |].
  rewrite run_register_all_cons. simpl host_lookup. simpl host_entry.
  unfold lookup_slot, activate, after. cbn [scope calls outcome final].
  rewrite IH at 1 2. done.
Qed.

Lemma register_slot_lookup_ne w d name :
  name <> snd d -> register_slot w d !! name = w !! name.
Proof.
  intros Hne. unfold register_slot, activate. cbn [snd scope].
  by rewrite lookup_insert_ne.
Qed.

Lemma register_slot_registrations w d :
  registrations (register_slot w d) (snd d)
  = registrations w (snd d) ++ [fst d].
Proof.
  unfold registrations at 1. unfold register_slot, activate. cbn [snd scope].
  by rewrite lookup_insert_eq.
Qed.

Lemma register_slot_registrations_ne w d name :
  name <> snd d ->
  registrations (register_slot w d) name = registrations w name.
Proof.
  intros Hne. unfold registrations. by rewrite register_slot_lookup_ne.
Qed.

(** Registrations in different slots commute. *)
Lemma register_slot_comm w d1 d2 :
  snd d1 <> snd d2 ->
  register_slot (register_slot w d1) d2 = register_slot (register_slot w d2) d1.
Proof.
  intros Hne. apply map_eq. intros name.
  destruct (decide (name = snd d1)) as [-> | Hne1];
    [| destruct (decide (name = snd d2)) as [-> | Hne2]].
  - rewrite register_slot_lookup_ne by done.
    unfold register_slot at 1 2, activate. cbn [snd scope].
    rewrite !lookup_insert_eq.
    by rewrite register_slot_registrations_ne.
  - rewrite (register_slot_lookup_ne _ d1) by done.
    unfold register_slot at 1 3, activate. cbn [snd scope].
    rewrite !lookup_insert_eq.
    by rewrite register_slot_registrations_ne.
  - by rewrite !register_slot_lookup_ne.
Qed.

Lemma register_slots_permutation table1 table2 :
  table1 ≡ₚ table2 ->
  NoDup (map snd table1) ->
  forall w, foldl register_slot w table1 = foldl register_slot w table2.
Proof.
  induction 1 as [| d t1 t2 Hperm IH | d1 d2 t | t1 t2 t3 H12 IH12 H23 IH23];
    intros Hnd w.
  - done.
  - simpl. apply IH. by apply NoDup_cons in Hnd as [_ ?].
  - simpl. f_equal. apply register_slot_comm.
    simpl in Hnd. apply NoDup_cons in Hnd as [Hnotin _]. set_solver.
  - rewrite IH12 by done. apply IH23. by rewrite <- H12.
Qed.

Lemma register_slots_lookup_other table w name :
  name ∉ map snd table -> foldl register_slot w table !! name = w !! name.
Proof.
  revert w. induction table as [| d table IH]; intros w Hname; [done |].
  simpl in Hname. apply not_elem_of_cons in Hname as [Hne Hname].
  simpl. rewrite IH by done. by apply register_slot_lookup_ne.
Qed.

Lemma register_slots_registrations table w d :
  NoDup (map snd table) -> d ∈ table ->
  registrations (foldl register_slot w table) (snd d)
  = registrations w (snd d) ++ [fst d].
Proof.
  revert w. induction table as [| d' table IH]; intros w Hnd Hd.
  { by apply elem_of_nil in Hd. }
  simpl in Hnd. apply NoDup_cons in Hnd as [Hfresh Hnd].
  apply elem_of_cons in Hd as [-> | Hd]; simpl.
  - unfold registrations at 1.
    rewrite register_slots_lookup_other by done.
    apply register_slot_registrations.
  - rewrite IH by done. rewrite register_slot_registrations_ne; [done |].
    intros Heq. apply Hfresh. rewrite <- Heq.
    by apply (list_elem_of_fmap_2 snd).
Qed.

(** C7: on the registry of slots, running the eight (lookup, register)
    pairs in any order runs to completion and leaves the registry in the
    state the order of [RegisterPlugins] leaves it in. *)
Theorem registrations_commute (table : list Descriptor)
  (w : gmap string (list EntryPoint)) :
  table ≡ₚ plugin_table ->
  returned (run (register_all TheRegistry table) w)
  /\ final (run (register_all TheRegistry table) w)
     = final (run (RegisterPlugins TheRegistry) w).
Proof.
  intros Hperm. rewrite RegisterPlugins_table.
  rewrite (slot_run_register_all table), (slot_run_register_all plugin_table).
  split; [by exists () |]. cbn [final].
  symmetry. apply register_slots_permutation; [done |].
  apply NoDup_plugin_names.
Qed.

(** C8: on the registry of slots, an invocation on a valid handle returns,
    and returns nothing; afterwards each of the eight plugins is active, its
    slot holding what it held before and the registration just made, and
    every other slot of the registry is as it was. *)
Theorem RegisterPlugins_frame (w : gmap string (list EntryPoint)) :
  let r := run (RegisterPlugins TheRegistry) w in
  outcome r = inr tt
  /\ (forall name, name ∈ known_plugin_names -> active (final r) name)
  /\ (forall entry,
        registrations (final r) (canonical_name entry)
        = registrations w (canonical_name entry) ++ [entry])
  /\ (forall name, name ∉ known_plugin_names -> final r !! name = w !! name).
Proof.
  cbv zeta. rewrite RegisterPlugins_table, slot_run_register_all.
  cbn [outcome final].
  assert (forall entry,
    registrations (foldl register_slot w plugin_table) (canonical_name entry)
    = registrations w (canonical_name entry) ++ [entry]) as Hslots.
  { intros entry.
    apply (register_slots_registrations plugin_table w
             (entry, canonical_name entry)); [apply NoDup_plugin_names |].
    rewrite <- canonical_name_table.
    apply (list_elem_of_fmap_2 (fun e => (e, canonical_name e))).
    destruct entry; set_solver. }
  split_and!; [done | | done |].
  - intros name Hname.
    rewrite known_plugin_names_table, <- canonical_name_table in Hname.
    apply elem_of_list_to_set, list_elem_of_fmap in Hname as (d & -> & Hd).
    apply list_elem_of_fmap in Hd as (entry & -> & _).
    unfold active. cbn [snd]. rewrite Hslots. by intros [_ ?]%app_eq_nil.
  - intros name Hname. apply register_slots_lookup_other.
    rewrite known_plugin_names_table in Hname. set_solver.
Qed.

End SlotRegistryFacts.

(** ** The properties at work on concrete hosts *)

Lemma RegisterPlugins_one_lookup_per_name_witness :
  returned (run (RegisterPlugins ()) 16)
  /\ length (lookup_names (calls (run (RegisterPlugins ()) 16))) = 8
  /\ lookups_of "FlutterJsPlugin" (calls (run (RegisterPlugins ()) 16)) = 1.
Proof.
  assert (returned (run (RegisterPlugins ()) 16)) as Hret by (by exists ()).
  destruct (RegisterPlugins_one_lookup_per_name () 16)
    as (_ & _ & _ & _ & Hdone).
  destruct (Hdone Hret) as [Hlen Hone].
  split_and!; [done | done |]. apply Hone.
  unfold known_plugin_names. set_solver.
Defined.

Lemma RegisterPlugins_names_requested_witness :
  returned (run (RegisterPlugins SlotRegistry.TheRegistry) ∅)
  /\ list_to_set
       (lookup_names (calls (run (RegisterPlugins SlotRegistry.TheRegistry) ∅)))
     = known_plugin_names.
Proof.
  assert (returned (run (RegisterPlugins SlotRegistry.TheRegistry) ∅))
    as Hret by (by exists ()).
  split; [done |].
  by apply (RegisterPlugins_names_requested SlotRegistry.TheRegistry ∅).
Defined.

Lemma RegisterPlugins_wiring_witness :
  returned (run (RegisterPlugins SlotRegistry.TheRegistry) ∅)
  /\ invocations_of UrlLauncherWindowsRegisterWithRegistrar
       (calls (run (RegisterPlugins SlotRegistry.TheRegistry) ∅)) = 1
  /\ exists r,
       registrars_passed UrlLauncherWindowsRegisterWithRegistrar
         (calls (run (RegisterPlugins SlotRegistry.TheRegistry) ∅)) = [r]
       /\ registrars_obtained "UrlLauncherWindows"
            (calls (run (RegisterPlugins SlotRegistry.TheRegistry) ∅)) = [r].
Proof.
  assert (returned (run (RegisterPlugins SlotRegistry.TheRegistry) ∅))
    as Hret by (by exists ()).
  split; [done |].
  destruct (RegisterPlugins_wiring SlotRegistry.TheRegistry ∅)
    as (_ & _ & Hdone).
  apply (Hdone Hret UrlLauncherWindowsRegisterWithRegistrar).
Defined.

Lemma RegisterPlugins_invalid_handle_witness :
  host_lookup SlotRegistry.NullRegistry "BatteryPlusWindowsPlugin" ∅
  = (inl SlotRegistry.InvalidHandle, ∅)
  /\ run (RegisterPlugins SlotRegistry.NullRegistry) ∅
     = mkResult (inl SlotRegistry.InvalidHandle) ∅
         [LookupEv SlotRegistry.NullRegistry "BatteryPlusWindowsPlugin"
            (inl SlotRegistry.InvalidHandle)]
  /\ entries_invoked (calls (run (RegisterPlugins SlotRegistry.NullRegistry) ∅))
     = []
  /\ ~ returned (run (RegisterPlugins SlotRegistry.NullRegistry) ∅).
Proof.
  split; [reflexivity |].
  apply (RegisterPlugins_invalid_handle SlotRegistry.NullRegistry ∅).
  reflexivity.
Defined.

Lemma RegisterPlugins_failure_propagates_witness :
  calls (run (RegisterPlugins ()) 5)
  = [ LookupEv () "BatteryPlusWindowsPlugin" (inr "BatteryPlusWindowsPlugin");
      EntryEv BatteryPlusWindowsPluginRegisterWithRegistrar
        "BatteryPlusWindowsPlugin" (inr ());
      LookupEv () "BonsoirWindowsPluginCApi" (inr "BonsoirWindowsPluginCApi");
      EntryEv BonsoirWindowsPluginCApiRegisterWithRegistrar
        "BonsoirWindowsPluginCApi" (inr ());
      LookupEv () "FirebaseCorePluginCApi" (inr "FirebaseCorePluginCApi") ]
    ++ EntryEv FirebaseCorePluginCApiRegisterWithRegistrar
         "FirebaseCorePluginCApi"
         (inl "FirebaseCorePluginCApiRegisterWithRegistrar failed")
       :: []
  /\ outcome (run (RegisterPlugins ()) 5)
     = inl "FirebaseCorePluginCApiRegisterWithRegistrar failed"
  /\ exists done d rest,
       plugin_table = done ++ d :: rest
       /\ d = (FirebaseCorePluginCApiRegisterWithRegistrar,
               "FirebaseCorePluginCApi")
       /\ forall d', d' ∈ rest ->
            lookups_of (snd d') (calls (run (RegisterPlugins ()) 5)) = 0
            /\ invocations_of (fst d') (calls (run (RegisterPlugins ()) 5)) = 0.
Proof.
  assert (calls (run (RegisterPlugins ()) 5)
          = [ LookupEv () "BatteryPlusWindowsPlugin"
                (inr "BatteryPlusWindowsPlugin");
              EntryEv BatteryPlusWindowsPluginRegisterWithRegistrar
                "BatteryPlusWindowsPlugin" (inr ());
              LookupEv () "BonsoirWindowsPluginCApi"
                (inr "BonsoirWindowsPluginCApi");
              EntryEv BonsoirWindowsPluginCApiRegisterWithRegistrar
                "BonsoirWindowsPluginCApi" (inr ());
              LookupEv () "FirebaseCorePluginCApi"
                (inr "FirebaseCorePluginCApi") ]
            ++ EntryEv FirebaseCorePluginCApiRegisterWithRegistrar
                 "FirebaseCorePluginCApi"
                 (inl "FirebaseCorePluginCApiRegisterWithRegistrar failed")
               :: []) as Hcalls by reflexivity.
  split; [exact Hcalls |].
  destruct (RegisterPlugins_failure_propagates () 5
              [ LookupEv () "BatteryPlusWindowsPlugin"
                  (inr "BatteryPlusWindowsPlugin");
                EntryEv BatteryPlusWindowsPluginRegisterWithRegistrar
                  "BatteryPlusWindowsPlugin" (inr ());
                LookupEv () "BonsoirWindowsPluginCApi"
                  (inr "BonsoirWindowsPluginCApi");
                EntryEv BonsoirWindowsPluginCApiRegisterWithRegistrar
                  "BonsoirWindowsPluginCApi" (inr ());
                LookupEv () "FirebaseCorePluginCApi"
                  (inr "FirebaseCorePluginCApi") ]
              (EntryEv FirebaseCorePluginCApiRegisterWithRegistrar
                 "FirebaseCorePluginCApi"
                 (inl "FirebaseCorePluginCApiRegisterWithRegistrar failed"))
              []
              "FirebaseCorePluginCApiRegisterWithRegistrar failed"
              Hcalls eq_refl)
    as (_ & Hout & done & d & rest & Htable & Hstop & Hrest).
  split; [exact Hout |]. exists done, d, rest.
  split; [exact Htable |]. split; [| exact Hrest].
  destruct Hstop as [(Hev & _) | (reg & tr_done & Hev & _)];
    [discriminate Hev |].
  destruct d as [entry name]. cbn [fst snd] in Hev.
  injection Hev as Hentry. subst entry.
  assert ((FirebaseCorePluginCApiRegisterWithRegistrar, name) ∈ plugin_table)
    as Hin by (rewrite Htable; apply elem_of_app; right; left).
  unfold plugin_table in Hin. set_unfold in Hin.
  by destruct_or!; simplify_eq.
Defined.

Lemma RegisterPlugins_second_round_witness :
  returned (run (RegisterPlugins () ;; RegisterPlugins ()) 32)
  /\ calls (run (RegisterPlugins () ;; RegisterPlugins ()) 32)
     = calls (run (RegisterPlugins ()) 32) ++ calls (run (RegisterPlugins ()) 16)
  /\ map call_of (calls (run (RegisterPlugins ()) 16))
     = RegisterPlugins_order ().
Proof.
  assert (returned (run (RegisterPlugins () ;; RegisterPlugins ()) 32))
    as Hret by (by exists ()).
  destruct (RegisterPlugins_second_round () 32 Hret) as (Hcalls & _ & _ & Hsnd).
  split_and!; [done | apply Hcalls | apply Hsnd].
Defined.

Lemma registrations_commute_witness :
  reverse plugin_table ≡ₚ plugin_table
  /\ final (run (register_all SlotRegistry.TheRegistry (reverse plugin_table)) ∅)
     = final (run (RegisterPlugins SlotRegistry.TheRegistry) ∅).
Proof.
  split; [apply reverse_Permutation |].
  apply (registrations_commute (reverse plugin_table) ∅).
  apply reverse_Permutation.
Defined.

Lemma RegisterPlugins_frame_witness :
  ("FlutterJsPlugin" ∈ known_plugin_names)
  /\ SlotRegistry.active
       (final (run (RegisterPlugins SlotRegistry.TheRegistry)
                 {[ "SomeOtherPlugin" := [FlutterJsPluginRegisterWithRegistrar] ]}))
       "FlutterJsPlugin"
  /\ ("SomeOtherPlugin" ∉ known_plugin_names)
  /\ final (run (RegisterPlugins SlotRegistry.TheRegistry)
              {[ "SomeOtherPlugin" := [FlutterJsPluginRegisterWithRegistrar] ]})
     !! "SomeOtherPlugin"
     = Some [FlutterJsPluginRegisterWithRegistrar].
Proof.
  assert ("FlutterJsPlugin" ∈ known_plugin_names) as Hknown
    by (unfold known_plugin_names; set_solver).
  assert ("SomeOtherPlugin" ∉ known_plugin_names) as Hother
    by (by apply (bool_decide_unpack ("SomeOtherPlugin" ∉ known_plugin_names))).
  destruct (RegisterPlugins_frame
              {[ "SomeOtherPlugin" := [FlutterJsPluginRegisterWithRegistrar] ]})
    as (_ & Hactive & _ & Hframe).
  split_and!; [done | by apply Hactive | done |].
  rewrite Hframe by done. apply lookup_singleton_eq.
Defined.

Lemma RegisterPlugins_fixed_order_witness :
  returned (run (RegisterPlugins ()) 16)
  /\ map call_of (calls (run (RegisterPlugins ()) 16))
     = RegisterPlugins_order ().
Proof.
  assert (returned (run (RegisterPlugins ()) 16)) as Hret by (by exists ()).
  split; [done |]. by apply (RegisterPlugins_fixed_order () 16).
Defined.

Lemma RegisterPlugins_deterministic_witness :
  (forall (entry : EntryPoint) (w : nat) a1 a2,
     @lookup_rel _ _ _ _ (graph_of FuseHost.fuse_host) ()
       (canonical_name entry) w a1 ->
     @lookup_rel _ _ _ _ FuseHost.fuse_rel_loose ()
       (canonical_name entry) w a2 ->
     a1 = a2)
  /\ (forall (entry : EntryPoint) (w : nat) (r : string) (w1 : nat) a1 a2,
        @lookup_rel _ _ _ _ (graph_of FuseHost.fuse_host) ()
          (canonical_name entry) w (inr r, w1) ->
        @entry_rel _ _ _ _ (graph_of FuseHost.fuse_host) entry r w1 a1 ->
        @entry_rel _ _ _ _ FuseHost.fuse_rel_loose entry r w1 a2 ->
        a1 = a2)
  /\ exec (R := graph_of FuseHost.fuse_host) (RegisterPlugins ()) 3
       (run (RegisterPlugins ()) 3)
  /\ exec (R := FuseHost.fuse_rel_loose) (RegisterPlugins ()) 3
       (mkResult
          (inl "BonsoirWindowsPluginCApiRegisterWithRegistrar failed") 0
          [ LookupEv () "BatteryPlusWindowsPlugin"
              (inr "BatteryPlusWindowsPlugin");
            EntryEv BatteryPlusWindowsPluginRegisterWithRegistrar
              "BatteryPlusWindowsPlugin" (inr ());
            LookupEv () "BonsoirWindowsPluginCApi"
              (inr "BonsoirWindowsPluginCApi");
            EntryEv BonsoirWindowsPluginCApiRegisterWithRegistrar
              "BonsoirWindowsPluginCApi"
              (inl "BonsoirWindowsPluginCApiRegisterWithRegistrar failed") ])
  /\ calls (run (RegisterPlugins ()) 3)
     = [ LookupEv () "BatteryPlusWindowsPlugin"
           (inr "BatteryPlusWindowsPlugin");
         EntryEv BatteryPlusWindowsPluginRegisterWithRegistrar
           "BatteryPlusWindowsPlugin" (inr ());
         LookupEv () "BonsoirWindowsPluginCApi"
           (inr "BonsoirWindowsPluginCApi");
         EntryEv BonsoirWindowsPluginCApiRegisterWithRegistrar
           "BonsoirWindowsPluginCApi"
           (inl "BonsoirWindowsPluginCApiRegisterWithRegistrar failed") ]
  /\ final (run (RegisterPlugins ()) 3) = 0
  /\ outcome (run (RegisterPlugins ()) 3)
     = inl "BonsoirWindowsPluginCApiRegisterWithRegistrar failed".
Proof.
  assert (forall (entry : EntryPoint) (w : nat) a1 a2,
            @lookup_rel _ _ _ _ (graph_of FuseHost.fuse_host) ()
              (canonical_name entry) w a1 ->
            @lookup_rel _ _ _ _ FuseHost.fuse_rel_loose ()
              (canonical_name entry) w a2 ->
            a1 = a2) as Hlookup.
  { intros entry w a1 a2 Ha1 Ha2. simpl in Ha1, Ha2.
    rewrite <- Ha1. apply Ha2. unfold known_plugin_names.
    destruct entry; set_solver. }
  assert (forall (entry : EntryPoint) (w : nat) (r : string) (w1 : nat) a1 a2,
            @lookup_rel _ _ _ _ (graph_of FuseHost.fuse_host) ()
              (canonical_name entry) w (inr r, w1) ->
            @entry_rel _ _ _ _ (graph_of FuseHost.fuse_host) entry r w1 a1 ->
            @entry_rel _ _ _ _ FuseHost.fuse_rel_loose entry r w1 a2 ->
            a1 = a2) as Hentry.
  { intros entry w r w1 a1 a2 Hr Ha1 Ha2. simpl in Hr, Ha1, Ha2.
    rewrite <- Ha1. apply Ha2. destruct w; simpl in Hr; by simplify_eq. }
  assert (exec (R := graph_of FuseHost.fuse_host) (RegisterPlugins ()) 3
            (run (RegisterPlugins ()) 3)) as H1 by apply exec_run.
  assert (exec (R := FuseHost.fuse_rel_loose) (RegisterPlugins ()) 3
            (mkResult
               (inl "BonsoirWindowsPluginCApiRegisterWithRegistrar failed") 0
               [ LookupEv () "BatteryPlusWindowsPlugin"
                   (inr "BatteryPlusWindowsPlugin");
                 EntryEv BatteryPlusWindowsPluginRegisterWithRegistrar
                   "BatteryPlusWindowsPlugin" (inr ());
                 LookupEv () "BonsoirWindowsPluginCApi"
                   (inr "BonsoirWindowsPluginCApi");
                 EntryEv BonsoirWindowsPluginCApiRegisterWithRegistrar
                   "BonsoirWindowsPluginCApi"
                   (inl "BonsoirWindowsPluginCApiRegisterWithRegistrar failed")
               ])) as H2.
  { apply (exec_lookup (R := FuseHost.fuse_rel_loose) ()
             "BatteryPlusWindowsPlugin" _ 3 "BatteryPlusWindowsPlugin" 2
             (mkResult
                (inl "BonsoirWindowsPluginCApiRegisterWithRegistrar failed") 0
                [ EntryEv BatteryPlusWindowsPluginRegisterWithRegistrar
                    "BatteryPlusWindowsPlugin" (inr ());
                  LookupEv () "BonsoirWindowsPluginCApi"
                    (inr "BonsoirWindowsPluginCApi");
                  EntryEv BonsoirWindowsPluginCApiRegisterWithRegistrar
                    "BonsoirWindowsPluginCApi"
                    (inl "BonsoirWindowsPluginCApiRegisterWithRegistrar failed")
                ])); [by intros _ |].
    apply (exec_entry (R := FuseHost.fuse_rel_loose)
             BatteryPlusWindowsPluginRegisterWithRegistrar
             "BatteryPlusWindowsPlugin" _ 2 () 1
             (mkResult
                (inl "BonsoirWindowsPluginCApiRegisterWithRegistrar failed") 0
                [ LookupEv () "BonsoirWindowsPluginCApi"
                    (inr "BonsoirWindowsPluginCApi");
                  EntryEv BonsoirWindowsPluginCApiRegisterWithRegistrar
                    "BonsoirWindowsPluginCApi"
                    (inl "BonsoirWindowsPluginCApiRegisterWithRegistrar failed")
                ])); [by intros _ |].
    apply (exec_lookup (R := FuseHost.fuse_rel_loose) ()
             "BonsoirWindowsPluginCApi" _ 1 "BonsoirWindowsPluginCApi" 0
             (mkResult
                (inl "BonsoirWindowsPluginCApiRegisterWithRegistrar failed") 0
                [ EntryEv BonsoirWindowsPluginCApiRegisterWithRegistrar
                    "BonsoirWindowsPluginCApi"
                    (inl "BonsoirWindowsPluginCApiRegisterWithRegistrar failed")
                ])); [by intros _ |].
    apply (exec_entry_fails (R := FuseHost.fuse_rel_loose)
             BonsoirWindowsPluginCApiRegisterWithRegistrar
             "BonsoirWindowsPluginCApi" _ 0
             "BonsoirWindowsPluginCApiRegisterWithRegistrar failed" 0).
    by intros _. }
  split; [done |]. split; [done |]. split; [done |]. split; [done |].
  apply (RegisterPlugins_deterministic (graph_of FuseHost.fuse_host)
           FuseHost.fuse_rel_loose () 3 _ _ Hlookup Hentry H1 H2).
Defined.

Lemma RegisterPlugins_registrar_used_witness :
  calls (run (RegisterPlugins ()) 5)
  = [ LookupEv () "BatteryPlusWindowsPlugin" (inr "BatteryPlusWindowsPlugin");
      EntryEv BatteryPlusWindowsPluginRegisterWithRegistrar
        "BatteryPlusWindowsPlugin" (inr ());
      LookupEv () "BonsoirWindowsPluginCApi" (inr "BonsoirWindowsPluginCApi");
      EntryEv BonsoirWindowsPluginCApiRegisterWithRegistrar
        "BonsoirWindowsPluginCApi" (inr ()) ]
    ++ LookupEv () "FirebaseCorePluginCApi" (inr "FirebaseCorePluginCApi")
       :: [ EntryEv FirebaseCorePluginCApiRegisterWithRegistrar
              "FirebaseCorePluginCApi"
              (inl "FirebaseCorePluginCApiRegisterWithRegistrar failed") ]
  /\ exists entry ans post',
       [ EntryEv (Handle := unit) FirebaseCorePluginCApiRegisterWithRegistrar
           "FirebaseCorePluginCApi"
           (inl "FirebaseCorePluginCApiRegisterWithRegistrar failed") ]
       = EntryEv entry "FirebaseCorePluginCApi" ans :: post'
       /\ "FirebaseCorePluginCApi" = canonical_name entry.
Proof.
  split; [reflexivity |].
  apply (RegisterPlugins_registrar_used () 5
           [ LookupEv () "BatteryPlusWindowsPlugin"
               (inr "BatteryPlusWindowsPlugin");
             EntryEv BatteryPlusWindowsPluginRegisterWithRegistrar
               "BatteryPlusWindowsPlugin" (inr ());
             LookupEv () "BonsoirWindowsPluginCApi"
               (inr "BonsoirWindowsPluginCApi");
             EntryEv BonsoirWindowsPluginCApiRegisterWithRegistrar
               "BonsoirWindowsPluginCApi" (inr ()) ]
           () "FirebaseCorePluginCApi" "FirebaseCorePluginCApi").
  reflexivity.
Defined.

Lemma invocations_rounds_witness :
  returned (run (invocations 3 ()) 48)
  /\ map call_of (calls (run (invocations 3 ()) 48))
     = concat (replicate 3 (RegisterPlugins_order ()))
  /\ lookups_of "WindowManagerPlugin" (calls (run (invocations 3 ()) 48)) = 3.
Proof.
  assert (returned (run (invocations 3 ()) 48)) as Hret by (by exists ()).
  destruct (invocations_rounds 3 () 48 Hret) as [Hcalls Hcount].
  split_and!; [done | done |]. apply Hcount.
  unfold known_plugin_names. set_solver.
Defined.

Lemma RegisterPlugins_stands_in_witness :
  stands_in (fun _ => ()) SlotRegistry.scope (fun _ => ())
    (fun _ : SlotRegistry.Fault => "invalid handle")
    SlotRegistry.slot_host MockRegistry.mock_host SlotRegistry.TheRegistry
  /\ run (H := MockRegistry.mock_host) (RegisterPlugins ()) ()
     = translate_result (fun _ => ()) SlotRegistry.scope (fun _ => ())
         (fun _ : SlotRegistry.Fault => "invalid handle")
         (run (RegisterPlugins SlotRegistry.TheRegistry) ∅).
Proof.
  assert (stands_in (fun _ => ()) SlotRegistry.scope (fun _ => ())
            (fun _ : SlotRegistry.Fault => "invalid handle")
            SlotRegistry.slot_host MockRegistry.mock_host
            SlotRegistry.TheRegistry) as Hsim.
  { split.
    - intros entry w. simpl. unfold MockRegistry.lookup_mock.
      rewrite decide_True; [done |].
      unfold known_plugin_names. destruct entry; set_solver.
    - intros entry w r w1 Hr. simpl in Hr. simplify_eq. simpl.
      unfold MockRegistry.entry_mock. by rewrite decide_True. }
  split; [done |].
  apply (RegisterPlugins_stands_in SlotRegistry.slot_host
           MockRegistry.mock_host (fun _ => ()) SlotRegistry.scope
           (fun _ => ()) (fun _ => "invalid handle")
           SlotRegistry.TheRegistry ∅ Hsim).
Defined.

Lemma RegisterPlugins_invariant_witness :
  (forall (entry : EntryPoint) (w : gmap string (list EntryPoint)),
     w !! "SomeOtherPlugin" = None ->
     snd (SlotRegistry.lookup_slot SlotRegistry.TheRegistry
            (canonical_name entry) w) !! "SomeOtherPlugin" = None)
  /\ (forall (entry : EntryPoint) (w : gmap string (list EntryPoint))
             (r : SlotRegistry.SubRegistrar)
             (w1 : gmap string (list EntryPoint)),
        w !! "SomeOtherPlugin" = None ->
        SlotRegistry.lookup_slot SlotRegistry.TheRegistry
          (canonical_name entry) w = (inr r, w1) ->
        snd (SlotRegistry.activate entry r w1) !! "SomeOtherPlugin" = None)
  /\ final (run (RegisterPlugins SlotRegistry.TheRegistry) ∅)
     !! "SomeOtherPlugin" = None.
Proof.
  assert (forall (entry : EntryPoint) (w : gmap string (list EntryPoint)),
            w !! "SomeOtherPlugin" = None ->
            snd (SlotRegistry.lookup_slot SlotRegistry.TheRegistry
                   (canonical_name entry) w) !! "SomeOtherPlugin" = None)
    as Hlookup by done.
  assert (forall (entry : EntryPoint) (w : gmap string (list EntryPoint))
                 (r : SlotRegistry.SubRegistrar)
                 (w1 : gmap string (list EntryPoint)),
            w !! "SomeOtherPlugin" = None ->
            SlotRegistry.lookup_slot SlotRegistry.TheRegistry
              (canonical_name entry) w = (inr r, w1) ->
            snd (SlotRegistry.activate entry r w1) !! "SomeOtherPlugin" = None)
    as Hentry.
  { intros entry w r w1 Hw Heq. simpl in Heq. simplify_eq.
    unfold SlotRegistry.activate. cbn [snd SlotRegistry.scope].
    rewrite lookup_insert_ne; [done |]. by destruct entry. }
  split_and!; [done | done |].
  apply (@RegisterPlugins_invariant SlotRegistry.RegistryHandle
           SlotRegistry.SubRegistrar (gmap string (list EntryPoint))
           SlotRegistry.Fault SlotRegistry.slot_host
           (fun w => w !! "SomeOtherPlugin" = None)
           SlotRegistry.TheRegistry ∅ Hlookup Hentry).
  apply lookup_empty.
Defined.

(** The loose fuse host does answer in more than one way where the routine
    does not call it. *)
Example fuse_rel_loose_not_deterministic :
  ~ deterministic FuseHost.fuse_rel_loose.
Proof.
  intros [Hlookup _].
  assert ("SomeOtherPlugin" ∉ known_plugin_names) as Hother
    by (by apply (bool_decide_unpack ("SomeOtherPlugin" ∉ known_plugin_names))).
  pose proof (Hlookup () "SomeOtherPlugin" 0 (inr "a", 0) (inr "b", 0)) as Heq.
  simpl in Heq. by discriminate Heq.
Qed.

(** On the registry of slots a second invocation registers every plugin a
    second time: the routine is not idempotent. *)
Example RegisterPlugins_not_idempotent :
  SlotRegistry.registrations
    (final (run (RegisterPlugins SlotRegistry.TheRegistry ;;
                 RegisterPlugins SlotRegistry.TheRegistry) ∅))
    "WindowManagerPlugin"
  = [WindowManagerPluginRegisterWithRegistrar;
     WindowManagerPluginRegisterWithRegistrar]
  /\ SlotRegistry.registrations
       (final (run (RegisterPlugins SlotRegistry.TheRegistry) ∅))
       "WindowManagerPlugin"
     = [WindowManagerPluginRegisterWithRegistrar].
Proof. split; vm_compute; reflexivity. Qed.
